(** * bora-codar-bot: the post scheduler of [src/server.ts]

    A shallow embedding of the class [PostScheduler]: the two SQLite tables,
    the four event listeners, the publish flow with its retry branch, the
    three cron jobs and the query surface used by the HTTP routes.

    Modelling conventions.
    - The SQLite database is a record of two tables, each a list of rows in
      insertion order.  A [WHERE] clause is a filter over the rows, an
      [UPDATE] a map, an [ORDER BY] an insertion sort.  SQLite does not enforce
      the [FOREIGN KEY] of [post_analytics] (no [PRAGMA foreign_keys]).
    - Instants are milliseconds since the epoch.  The code stores them as
      the text of [Date.toISOString] and SQLite compares these texts byte
      by byte.  The server clock reads an instant of a four-digit year
      ([real_clock]), for which the order of the texts is the order of the
      instants; a scheduled time comes from the request and may lie in a
      year whose text has a sign and six digits, which [iso_text_leb]
      orders as SQLite does.  A theorem whose reading of the code depends
      on the clock states [real_clock] as a hypothesis.
    - [Date.setDate] works on local time: the time zone of the server is
      an argument of [cleanupOldPosts].
    - [this.db] is [null] until [initDatabase] has run: the field is an
      [option].  The database is the file [./posts.db]: a new process finds
      the rows and events of the previous one, with no timer and no
      listener call of its own yet ([restart]); [reachable] ranges over
      any number of such lifetimes.
    - The asynchronous callbacks are run to completion one after the other;
      a database statement itself never fails except on a constraint of the
      schema.
    - [setTimeout] appends to a queue of pending timers; the Twitter client
      is an argument of every publish attempt. *)

From Stdlib Require Import ZArith List String Bool Lia.
From Stdlib Require Import Sorting.Sorted Sorting.Permutation.
Import ListNotations.
Local Open Scope Z_scope.

(** ** Data model *)

Definition Timestamp := Z.

Inductive Status := pending | posted | failed.
Inductive Platform := twitter | linkedin | instagram.

Definition Status_eqb (a b : Status) : bool :=
  match a, b with
  | pending, pending | posted, posted | failed, failed => true
  | _, _ => false
  end.

(** [interface ScheduledPost] *)
Record ScheduledPost := {
  id : string;
  content : string;
  scheduledFor : Timestamp;
  status : Status;
  createdAt : Timestamp;
  platform : Platform;
  tags : option (list string);
  retry_count : option Z;
  publishedAt : option Timestamp;
  errorMessage : option string
}.

(** What [new Date(s)] makes of a request's [scheduledFor] text. *)
Inductive DateString :=
| ValidDate (t : Timestamp)
| InvalidDate.

(** [interface PostRequest].  [req_scheduledFor = None] stands for a missing
    or empty (falsy) string. *)
Record PostRequest := {
  req_content : string;
  req_scheduledFor : option DateString;
  req_platform : Platform;
  req_tags : option (list string)
}.

(** Table [posts].  [retry_count] is nullable in the schema. *)
Module Posts.
Record row := {
  id : string;
  content : string;
  scheduled_for : Timestamp;
  status : Status;
  created_at : Timestamp;
  platform : Platform;
  tags : option (list string);
  published_at : option Timestamp;
  error_message : option string;
  retry_count : option Z
}.
End Posts.

(** The payload that [logAnalytics] serialises into [event_data]. *)
Inductive EventData :=
| DataScheduledFor (t : Timestamp)
| DataError (msg : option string)
| DataAttempt (attempt : Z).

(** Table [post_analytics]. *)
Module PostAnalytics.
Record row := {
  id : Z;
  post_id : string;
  event_type : string;
  event_data : option EventData;
  created_at : Z
}.
End PostAnalytics.

Record Database := {
  posts : list Posts.row;
  post_analytics : list PostAnalytics.row
}.

(** A thrown JavaScript error, as far as the code looks into it. *)
Record JsError := { message : option string }.

Inductive TweetResult :=
| TweetOk
| TweetError (error : JsError).

Definition TwitterClient := string -> TweetResult.

(** The four signals of the [EventEmitter]. *)
Inductive Signal :=
| post_scheduled (post : ScheduledPost)
| post_published (post : ScheduledPost)
| post_failed (post : ScheduledPost) (error : JsError)
| post_retrying (post : ScheduledPost) (attempt : Z).

(** A pending [setTimeout(() => this.publishPost(post), delay)]. *)
Record Timer := {
  timer_due : Timestamp;
  timer_post : ScheduledPost
}.

(** The scheduler object: the database handle, the timers it has armed and
    the signals it has emitted so far, oldest first. *)
Record PostScheduler := {
  db : option Database;
  timers : list Timer;
  emitted : list Signal
}.

Definition set_db (d : Database) (st : PostScheduler) : PostScheduler :=
  {| db := Some d; timers := timers st; emitted := emitted st |}.

Definition set_posts (ps : list Posts.row) (d : Database) : Database :=
  {| posts := ps; post_analytics := post_analytics d |}.

(** ** Generic SQL helpers *)

Section OrderBy.
Context {A : Type} (key : A -> Z).

Fixpoint insert_by (x : A) (l : list A) : list A :=
  match l with
  | [] => [x]
  | y :: l' => if key x <? key y then x :: l else y :: insert_by x l'
  end.

(** [ORDER BY key ASC].  SQLite promises no order among rows with equal
    keys; here the row that is later in the table comes first. *)
Definition order_by (l : list A) : list A :=
  fold_right insert_by [] l.

Definition key_le (a b : A) : Prop := key a <= key b.
End OrderBy.

(** [ORDER BY] on a column whose order is given by a comparison. *)
Section OrderByLeb.
Context {A : Type} (leb : A -> A -> bool).

Fixpoint insert_leb (x : A) (l : list A) : list A :=
  match l with
  | [] => [x]
  | y :: l' => if leb x y then x :: l else y :: insert_leb x l'
  end.

Definition order_by_leb (l : list A) : list A :=
  fold_right insert_leb [] l.
End OrderByLeb.

(** [a || b] on an optional string: the empty string is falsy. *)
Definition string_or (a : option string) (b : string) : string :=
  match a with
  | Some s => if String.eqb s "" then b else s
  | None => b
  end.

(** [a ?? b] *)
Definition nullish {A} (a : option A) (b : A) : A :=
  match a with Some v => v | None => b end.

(** ** logAnalytics *)

(** [CURRENT_TIMESTAMP] has a resolution of one second. *)
Definition CURRENT_TIMESTAMP (now : Timestamp) : Z := now / 1000.

Definition event_row (d : Database) (now : Timestamp) (postId : string)
    (eventType : string) (eventData : option EventData)
  : PostAnalytics.row :=
  {| PostAnalytics.id := Z.of_nat (List.length (post_analytics d)) + 1;
     PostAnalytics.post_id := postId;
     PostAnalytics.event_type := eventType;
     PostAnalytics.event_data := eventData;
     PostAnalytics.created_at := CURRENT_TIMESTAMP now |}.

Definition logAnalytics (now : Timestamp) (postId eventType : string)
    (eventData : option EventData) (st : PostScheduler) : PostScheduler :=
  match db st with
  | None => st
  | Some d =>
      set_db {| posts := posts d;
                post_analytics :=
                  post_analytics d ++
                  [event_row d now postId eventType eventData] |} st
  end.

(** ** updatePostStatus *)

(** One entry of [updateFields], with its value from [updateValues]. *)
Inductive UpdateField :=
| SetStatus (s : Status)
| SetErrorMessage (m : option string)
| SetPublishedAt (t : option Timestamp)
| IncrRetryCount.

Definition apply_field (old : Posts.row) (f : UpdateField) (r : Posts.row)
  : Posts.row :=
  match f with
  | SetStatus s =>
      {| Posts.id := Posts.id r; Posts.content := Posts.content r;
         Posts.scheduled_for := Posts.scheduled_for r; Posts.status := s;
         Posts.created_at := Posts.created_at r;
         Posts.platform := Posts.platform r; Posts.tags := Posts.tags r;
         Posts.published_at := Posts.published_at r;
         Posts.error_message := Posts.error_message r;
         Posts.retry_count := Posts.retry_count r |}
  | SetErrorMessage m =>
      {| Posts.id := Posts.id r; Posts.content := Posts.content r;
         Posts.scheduled_for := Posts.scheduled_for r;
         Posts.status := Posts.status r;
         Posts.created_at := Posts.created_at r;
         Posts.platform := Posts.platform r; Posts.tags := Posts.tags r;
         Posts.published_at := Posts.published_at r;
         Posts.error_message := m;
         Posts.retry_count := Posts.retry_count r |}
  | SetPublishedAt t =>
      {| Posts.id := Posts.id r; Posts.content := Posts.content r;
         Posts.scheduled_for := Posts.scheduled_for r;
         Posts.status := Posts.status r;
         Posts.created_at := Posts.created_at r;
         Posts.platform := Posts.platform r; Posts.tags := Posts.tags r;
         Posts.published_at := t;
         Posts.error_message := Posts.error_message r;
         Posts.retry_count := Posts.retry_count r |}
  | IncrRetryCount =>
      {| Posts.id := Posts.id r; Posts.content := Posts.content r;
         Posts.scheduled_for := Posts.scheduled_for r;
         Posts.status := Posts.status r;
         Posts.created_at := Posts.created_at r;
         Posts.platform := Posts.platform r; Posts.tags := Posts.tags r;
         Posts.published_at := Posts.published_at r;
         Posts.error_message := Posts.error_message r;
         Posts.retry_count :=
           option_map (fun n => n + 1) (Posts.retry_count old) |}
  end.

(** [UPDATE posts SET <fields> WHERE id = ?]: every right-hand side is
    evaluated on the row as it was. *)
Definition sql_update (fields : list UpdateField) (postId : string)
    (rows : list Posts.row) : list Posts.row :=
  map (fun r =>
         if String.eqb (Posts.id r) postId
         then fold_left (fun acc f => apply_field r f acc) fields r
         else r) rows.

(** An optional argument is [None] when it is left [undefined] and
    [Some None] when it is [null]. *)
Definition updatePostStatus (postId : string) (status : Status)
    (errorMessage : option (option string))
    (publishedAt : option (option Timestamp))
    (st : PostScheduler) : PostScheduler :=
  match db st with
  | None => st
  | Some d =>
      let updateFields :=
        [SetStatus status]
        ++ match errorMessage with
           | Some m => [SetErrorMessage m]
           | None => []
           end
        ++ match publishedAt with
           | Some t => [SetPublishedAt t]
           | None => []
           end
        ++ (if Status_eqb status failed then [IncrRetryCount] else []) in
      set_db (set_posts (sql_update updateFields postId (posts d)) d) st
  end.

Definition handleFailedPost (postId errorMessage : string)
    (st : PostScheduler) : PostScheduler :=
  updatePostStatus postId failed (Some (Some errorMessage)) None st.

(** ** setupEventListeners and emit *)

Definition listeners (now : Timestamp) (sig : Signal) (st : PostScheduler)
  : PostScheduler :=
  match sig with
  | post_scheduled post =>
      logAnalytics now (id post) "scheduled"
        (Some (DataScheduledFor (scheduledFor post))) st
  | post_published post =>
      logAnalytics now (id post) "published" None
        (updatePostStatus (id post) posted (Some None) (Some (Some now)) st)
  | post_failed post error =>
      logAnalytics now (id post) "failed" (Some (DataError (message error)))
        (handleFailedPost (id post)
           (string_or (message error) "Erro desconhecido") st)
  | post_retrying post attempt =>
      logAnalytics now (id post) "retry" (Some (DataAttempt attempt)) st
  end.

Definition emit (now : Timestamp) (sig : Signal) (st : PostScheduler)
  : PostScheduler :=
  listeners now sig
    {| db := db st; timers := timers st; emitted := emitted st ++ [sig] |}.

(** The [SET] lists of the two listeners that update a row. *)
Definition published_fields (now : Timestamp) : list UpdateField :=
  [SetStatus posted; SetErrorMessage None; SetPublishedAt (Some now)].

Definition failed_fields (error : JsError) : list UpdateField :=
  [SetStatus failed;
   SetErrorMessage (Some (string_or (message error) "Erro desconhecido"));
   IncrRetryCount].

(** ** getPostById *)

Definition post_of_row (dbPost : Posts.row) : ScheduledPost :=
  {| id := Posts.id dbPost;
     content := Posts.content dbPost;
     scheduledFor := Posts.scheduled_for dbPost;
     status := Posts.status dbPost;
     createdAt := Posts.created_at dbPost;
     platform := Posts.platform dbPost;
     tags := Posts.tags dbPost;
     retry_count := Posts.retry_count dbPost;
     publishedAt := Posts.published_at dbPost;
     errorMessage := Posts.error_message dbPost |}.

(** [SELECT * FROM posts WHERE id = ?], first row. *)
Definition select_by_id (postId : string) (rows : list Posts.row)
  : option Posts.row :=
  find (fun r => String.eqb (Posts.id r) postId) rows.

Definition getPostById (postId : string) (st : PostScheduler)
  : option ScheduledPost :=
  match db st with
  | None => None
  | Some d => option_map post_of_row (select_by_id postId (posts d))
  end.

(** ** schedulePost *)

Inductive ScheduleError :=
| DatabaseNotInitialised
| InvalidTimeValue
| PrimaryKeyConstraint.

Inductive ScheduleResult :=
| Resolved (postId : string)
| Rejected (e : ScheduleError).

(** The row that [schedulePost] inserts. *)
Definition inserted_row (postId : string) (now t : Timestamp)
    (postData : PostRequest) : Posts.row :=
  {| Posts.id := postId;
     Posts.content := req_content postData;
     Posts.scheduled_for := t;
     Posts.status := pending;
     Posts.created_at := now;
     Posts.platform := req_platform postData;
     Posts.tags := req_tags postData;
     Posts.published_at := None;
     Posts.error_message := None;
     Posts.retry_count := Some 0 |}.

(** The post object that [schedulePost] hands to the [scheduled] listener. *)
Definition scheduled_post (postId : string) (now t : Timestamp)
    (postData : PostRequest) : ScheduledPost :=
  {| id := postId;
     content := req_content postData;
     scheduledFor := t;
     status := pending;
     createdAt := now;
     platform := req_platform postData;
     tags := req_tags postData;
     retry_count := None;
     publishedAt := None;
     errorMessage := None |}.

(** [postId] is the identifier drawn from [Date.now()] and [Math.random()],
    [now] the clock read by [new Date()].  The [INSERT] names no
    [retry_count]: the row gets the default 0 of the schema. *)
Definition schedulePost (postId : string) (now : Timestamp)
    (postData : PostRequest) (st : PostScheduler)
  : ScheduleResult * PostScheduler :=
  match db st with
  | None => (Rejected DatabaseNotInitialised, st)
  | Some d =>
      match nullish (req_scheduledFor postData) (ValidDate now) with
      | InvalidDate => (Rejected InvalidTimeValue, st)
      | ValidDate t =>
          let scheduledPost := scheduled_post postId now t postData in
          if existsb (fun r => String.eqb (Posts.id r) postId) (posts d)
          then (Rejected PrimaryKeyConstraint, st)
          else
            (Resolved postId,
             emit now (post_scheduled scheduledPost)
               (set_db
                  (set_posts
                     (posts d ++ [inserted_row postId now t postData]) d)
                  st))
      end
  end.

(** ** publishPost *)

Definition setTimeout (now : Timestamp) (post : ScheduledPost) (delay : Z)
    (st : PostScheduler) : PostScheduler :=
  {| db := db st;
     timers := timers st ++ [{| timer_due := now + delay;
                                timer_post := post |}];
     emitted := emitted st |}.

Definition publishToTwitter (twitterClient : TwitterClient)
    (post : ScheduledPost) : TweetResult :=
  twitterClient (content post).

Definition publishPost (twitterClient : TwitterClient) (now : Timestamp)
    (post : ScheduledPost) (st : PostScheduler) : PostScheduler :=
  let attempt :=
    match platform post with
    | twitter => publishToTwitter twitterClient post
    | linkedin => TweetOk
    | instagram => TweetOk
    end in
  match attempt with
  | TweetOk => emit now (post_published post) st
  | TweetError error =>
      match getPostById (id post) st with
      | Some currentPost =>
          if nullish (retry_count currentPost) 0 <? 3
          then setTimeout now post (5 * 60 * 1000)
                 (emit now
                    (post_retrying post
                       (nullish (retry_count currentPost) 0 + 1)) st)
          else emit now (post_failed post error) st
      | None => emit now (post_failed post error) st
      end
  end.

(** ** startScheduler: the three cron jobs *)

(** *** The order of the stored date texts

    [Date.toISOString] writes a year from 0000 to 9999 with four digits
    (24 characters), and any other year with a sign and six digits (27
    characters).  SQLite compares the texts byte by byte, and ['+'] is
    less than ['-'], which is less than every digit. *)

(** 0000-01-01T00:00:00.000Z and +010000-01-01T00:00:00.000Z *)
Definition year_0 : Timestamp := -62167219200000.
Definition year_10000 : Timestamp := 253402300800000.

Inductive IsoShape :=
| ExpandedPlus               (* "+YYYYYY-MM-DDTHH:mm:ss.sssZ" *)
| ExpandedMinus              (* "-YYYYYY-MM-DDTHH:mm:ss.sssZ" *)
| FourDigits.                (* "YYYY-MM-DDTHH:mm:ss.sssZ" *)

Definition iso_shape (t : Timestamp) : IsoShape :=
  if t <? year_0 then ExpandedMinus
  else if t <? year_10000 then FourDigits
  else ExpandedPlus.

(** The year of an instant in the proleptic Gregorian calendar, year 0
    included, from the count of days since 0000-03-01. *)
Definition civil_year (t : Timestamp) : Z :=
  let z := t / 86400000 + 719468 in
  let era := z / 146097 in
  let doe := z - era * 146097 in
  let yoe := (doe - doe / 1460 + doe / 36524 - doe / 146096) / 365 in
  let doy := doe - (365 * yoe + yoe / 4 - yoe / 100) in
  let mp := (5 * doy + 2) / 153 in
  yoe + era * 400 + (if mp <? 10 then 0 else 1).

(** [a <= b] on the ISO texts of two instants.  Within one shape the
    fields are compared from the year down; for two negative years the
    digits of the year are those of its absolute value, so the later year
    comes first. *)
Definition iso_text_leb (a b : Timestamp) : bool :=
  match iso_shape a, iso_shape b with
  | ExpandedPlus, ExpandedPlus => a <=? b
  | ExpandedPlus, _ => true
  | ExpandedMinus, ExpandedPlus => false
  | ExpandedMinus, ExpandedMinus =>
      if civil_year a =? civil_year b then a <=? b
      else civil_year b <? civil_year a
  | ExpandedMinus, FourDigits => true
  | FourDigits, FourDigits => a <=? b
  | FourDigits, _ => false
  end.

(** The server clock reads a year from 0000 to 9999. *)
Definition real_clock (now : Timestamp) : Prop :=
  year_0 <= now < year_10000.

(** [t <= ?] where [?] is the text of the server clock, which starts with
    a digit: a text with a sign is below it, a text of four digits is
    compared as the instant it stands for. *)
Definition text_leb_clock (t now : Timestamp) : bool :=
  match iso_shape t with
  | FourDigits => t <=? now
  | ExpandedPlus | ExpandedMinus => true
  end.

(** [WHERE status = 'pending' AND scheduled_for <= ? AND retry_count < 3]
    with the text of the server clock for [?]; a comparison with [NULL]
    is not true. *)
Definition is_due (now : Timestamp) (r : Posts.row) : bool :=
  Status_eqb (Posts.status r) pending
  && text_leb_clock (Posts.scheduled_for r) now
  && match Posts.retry_count r with
     | Some n => n <? 3
     | None => false
     end.

(** [ORDER BY scheduled_for ASC], on the texts. *)
Definition scheduled_text_leb (a b : Posts.row) : bool :=
  iso_text_leb (Posts.scheduled_for a) (Posts.scheduled_for b).

Definition select_due (now : Timestamp) (rows : list Posts.row)
  : list Posts.row :=
  order_by_leb scheduled_text_leb (filter (is_due now) rows).

(** The post object that the tick builds from a row: no [publishedAt], no
    [errorMessage]. *)
Definition post_of_due_row (dbPost : Posts.row) : ScheduledPost :=
  {| id := Posts.id dbPost;
     content := Posts.content dbPost;
     scheduledFor := Posts.scheduled_for dbPost;
     status := Posts.status dbPost;
     createdAt := Posts.created_at dbPost;
     platform := Posts.platform dbPost;
     tags := Posts.tags dbPost;
     retry_count := Posts.retry_count dbPost;
     publishedAt := None;
     errorMessage := None |}.

(** The job of every minute. *)
Definition scheduler_tick (twitterClient : TwitterClient) (now : Timestamp)
    (st : PostScheduler) : PostScheduler :=
  match db st with
  | None => st
  | Some d =>
      fold_left
        (fun s dbPost =>
           publishPost twitterClient now (post_of_due_row dbPost) s)
        (select_due now (posts d)) st
  end.

(** The time zone of the server, as the [LocalTZA(t, isUTC)] of
    ECMAScript: the offset of local time from UTC, in milliseconds, at a
    UTC instant and at a local time value. *)
Record TimeZone := {
  offset_of_utc : Timestamp -> Z;
  offset_of_local : Z -> Z
}.

(** [new Date()] followed by [setDate(getDate() - 30)]: the local time of
    [now], moved back by 30 days of the calendar with the time within the
    day kept, and turned back into an instant with the offset in force at
    that local time. *)
Definition thirtyDaysAgo (tz : TimeZone) (now : Timestamp) : Timestamp :=
  let local := now + offset_of_utc tz now in
  let moved := local - 30 * (24 * 60 * 60 * 1000) in
  moved - offset_of_local tz moved.

Definition is_terminal (s : Status) : bool :=
  match s with
  | posted | failed => true
  | pending => false
  end.

(** [DELETE FROM posts WHERE status IN ('posted', 'failed')
    AND created_at < ?].  Both sides are texts of readings of the server
    clock, [created_at] of [new Date()] in [schedulePost] and the bound of
    the cut-off: texts of four digits, in the order of their instants. *)
Definition is_old (tz : TimeZone) (now : Timestamp) (r : Posts.row) : bool :=
  is_terminal (Posts.status r)
  && (Posts.created_at r <? thirtyDaysAgo tz now).

Definition cleanupOldPosts (tz : TimeZone) (now : Timestamp)
    (st : PostScheduler) : PostScheduler :=
  match db st with
  | None => st
  | Some d =>
      set_db
        (set_posts (filter (fun r => negb (is_old tz now r)) (posts d)) d) st
  end.

(** The job of 06:00. *)
Definition daily_post (postId : string) (now : Timestamp)
    (st : PostScheduler) : PostScheduler :=
  snd (schedulePost postId now
         {| req_content := "bora codar?";
            req_scheduledFor := Some (ValidDate now);
            req_platform := twitter;
            req_tags := Some ["daily"%string] |} st).

(** A timer that has come due runs its callback and is gone. *)
Definition fire_timer (twitterClient : TwitterClient) (now : Timestamp)
    (k : nat) (st : PostScheduler) : PostScheduler :=
  match nth_error (timers st) k with
  | Some t =>
      if timer_due t <=? now
      then publishPost twitterClient now (timer_post t)
             {| db := db st;
                timers := firstn k (timers st) ++ skipn (S k) (timers st);
                emitted := emitted st |}
      else st
  | None => st
  end.

(** ** deleteScheduledPost *)

(** [WHERE id = ? AND status = "pending"] *)
Definition delete_hit (postId : string) (r : Posts.row) : bool :=
  String.eqb (Posts.id r) postId && Status_eqb (Posts.status r) pending.

Definition deleteScheduledPost (postId : string) (st : PostScheduler)
  : bool * PostScheduler :=
  match db st with
  | None => (false, st)
  | Some d =>
      let changes :=
        Z.of_nat (List.length (filter (delete_hit postId) (posts d))) in
      (0 <? changes,
       set_db
         (set_posts (filter (fun r => negb (delete_hit postId r)) (posts d)) d)
         st)
  end.

(** ** getAnalytics *)

Module Joined.
(** [pa.*, p.content, p.platform, p.status] *)
Record row := {
  pa : PostAnalytics.row;
  content : string;
  platform : Platform;
  status : Status
}.
End Joined.

Module Stats.
Record t := {
  total_posts : Z;
  published : option Z;
  pending : option Z;
  failed : option Z
}.
End Stats.

(** [SUM] over no row at all is [NULL]. *)
Definition sql_sum {A} (f : A -> Z) (rows : list A) : option Z :=
  match rows with
  | [] => None
  | _ => Some (fold_right (fun r acc => f r + acc) 0 rows)
  end.

Definition case_status (s : Status) (r : Posts.row) : Z :=
  if Status_eqb (Posts.status r) s then 1 else 0.

Definition select_stats (rows : list Posts.row) : Stats.t :=
  {| Stats.total_posts := Z.of_nat (List.length rows);
     Stats.published := sql_sum (case_status posted) rows;
     Stats.pending := sql_sum (case_status pending) rows;
     Stats.failed := sql_sum (case_status failed) rows |}.

(** [post_analytics pa JOIN posts p ON pa.post_id = p.id] *)
Definition join_posts (d : Database) : list Joined.row :=
  flat_map
    (fun a =>
       map (fun p => {| Joined.pa := a;
                        Joined.content := Posts.content p;
                        Joined.platform := Posts.platform p;
                        Joined.status := Posts.status p |})
         (filter (fun p => String.eqb (PostAnalytics.post_id a) (Posts.id p))
            (posts d)))
    (post_analytics d).

Inductive AnalyticsResult :=
| NoAnalytics                          (* { posts: 0, analytics: [] } *)
| Analytics (stats : Stats.t) (analytics : list Joined.row).

(** [if (postId)]: a missing argument and the empty string are falsy. *)
Definition truthy (postId : option string) : option string :=
  match postId with
  | Some i => if String.eqb i "" then None else Some i
  | None => None
  end.

Definition getAnalytics (postId : option string) (st : PostScheduler)
  : AnalyticsResult :=
  match db st with
  | None => NoAnalytics
  | Some d =>
      let selected :=
        match truthy postId with
        | Some i =>
            filter (fun j => String.eqb (PostAnalytics.post_id (Joined.pa j)) i)
              (join_posts d)
        | None => join_posts d
        end in
      let analytics :=
        firstn 100
          (order_by (fun j => - PostAnalytics.created_at (Joined.pa j))
             selected) in
      Analytics (select_stats (posts d)) analytics
  end.

Definition stats_of (r : AnalyticsResult) : option Stats.t :=
  match r with
  | NoAnalytics => None
  | Analytics s _ => Some s
  end.

Definition analytics_of (r : AnalyticsResult) : list Joined.row :=
  match r with
  | NoAnalytics => []
  | Analytics _ a => a
  end.

(** ** The engine as a transition system *)

(** The object as the constructor leaves it. *)
Definition constructed : PostScheduler :=
  {| db := None; timers := []; emitted := [] |}.

(** [initDatabase] on the database file of the server: it opens the
    tables that a former process left there ([CREATE TABLE IF NOT EXISTS]),
    or creates them empty when there is no file yet ([None]). *)
Definition open_database (file : option Database) (st : PostScheduler)
  : PostScheduler :=
  match db st with
  | None => set_db (nullish file {| posts := []; post_analytics := [] |}) st
  | Some _ => st
  end.

(** [initDatabase] of the first start, when no file exists. *)
Definition initDatabase (st : PostScheduler) : PostScheduler :=
  open_database None st.

(** Everything that makes the engine move, with what the environment
    supplies: the clock, the fresh identifier, the Twitter client's answers. *)
Inductive Op :=
| OpInitDatabase
| OpSchedulePost (postId : string) (now : Timestamp) (postData : PostRequest)
| OpTick (twitterClient : TwitterClient) (now : Timestamp)
| OpTimer (twitterClient : TwitterClient) (now : Timestamp) (k : nat)
| OpCleanup (tz : TimeZone) (now : Timestamp)
| OpDailyPost (postId : string) (now : Timestamp)
| OpDelete (postId : string)
| OpGetAnalytics (postId : option string).

Definition step (st : PostScheduler) (op : Op) : PostScheduler :=
  match op with
  | OpInitDatabase => initDatabase st
  | OpSchedulePost postId now postData =>
      snd (schedulePost postId now postData st)
  | OpTick twitterClient now => scheduler_tick twitterClient now st
  | OpTimer twitterClient now k => fire_timer twitterClient now k st
  | OpCleanup tz now => cleanupOldPosts tz now st
  | OpDailyPost postId now => daily_post postId now st
  | OpDelete postId => snd (deleteScheduledPost postId st)
  | OpGetAnalytics _ => st
  end.

Definition run (ops : list Op) (st : PostScheduler) : PostScheduler :=
  fold_left step ops st.

(** A restart of the process.  The constructor builds a new scheduler,
    with no timer armed and no signal emitted, and its [initDatabase] opens
    the file that the former process wrote: rows and events are kept. *)
Definition restart (st : PostScheduler) : PostScheduler :=
  open_database (db st) constructed.

(** The lives of the process after the first, each one the operations of
    a scheduler that was started on the file of the one before. *)
Definition run_lifetimes (later : list (list Op)) (st : PostScheduler)
  : PostScheduler :=
  fold_left (fun s ops => run ops (restart s)) later st.

(** The states of the scheduler: the first process is started without a
    database file, and any number of restarts may follow. *)
Definition reachable (st : PostScheduler) : Prop :=
  exists first later, st = run_lifetimes later (run first constructed).

(** Rows of the [posts] table of a scheduler, none before [initDatabase]. *)
Definition rows_of (st : PostScheduler) : list Posts.row :=
  match db st with
  | Some d => posts d
  | None => []
  end.

Definition events_of (st : PostScheduler) : list PostAnalytics.row :=
  match db st with
  | Some d => post_analytics d
  | None => []
  end.

(** The audit trail of one post: type and payload of its events, oldest
    first. *)
Definition trail (postId : string) (st : PostScheduler)
  : list (string * option EventData) :=
  map (fun a => (PostAnalytics.event_type a, PostAnalytics.event_data a))
    (filter (fun a => String.eqb (PostAnalytics.post_id a) postId)
       (events_of st)).

(** An adapter that fails on every call. *)
Definition always_failing (error : JsError) : TwitterClient :=
  fun _ => TweetError error.

(** The retry chain: the timer armed by the previous attempt fires when it
    is due, and the attempt it starts fails again. *)
Fixpoint retry_chain (error : JsError) (n : nat) (now : Timestamp)
    (st : PostScheduler) : PostScheduler :=
  match n with
  | O => st
  | S n' =>
      retry_chain error n' (now + 5 * 60 * 1000)
        (fire_timer (always_failing error) (now + 5 * 60 * 1000) 0 st)
  end.

(** A table obeys [id TEXT PRIMARY KEY]. *)
Definition primary_key (rows : list Posts.row) : Prop :=
  NoDup (map Posts.id rows).

(** ** getScheduledPosts *)

(** [SELECT * FROM posts ORDER BY created_at DESC], each row turned into a
    post object as in [getPostById]. *)
Definition getScheduledPosts (st : PostScheduler) : list ScheduledPost :=
  match db st with
  | None => []
  | Some d =>
      map post_of_row (order_by (fun r => - Posts.created_at r) (posts d))
  end.

(** ** The HTTP routes *)

(** [Array.prototype.sort(compareFn)]: a stable sort, [x] before [y]
    whenever [compareFn x y <= 0] and [x] was first. *)
Section JsSort.
Context {A : Type} (compareFn : A -> A -> Z).

Fixpoint js_insert (x : A) (l : list A) : list A :=
  match l with
  | [] => [x]
  | y :: l' => if compareFn x y <=? 0 then x :: l else y :: js_insert x l'
  end.

Definition js_sort (l : list A) : list A :=
  fold_right js_insert [] l.
End JsSort.

(** The promise of an [async] method that the route does not [await]: an
    object, whatever it settles to. *)
Inductive Promise (A : Type) :=
| promise (settled : A).
Arguments promise {A} settled.

(** [!p] on a promise: an object is never falsy. *)
Definition js_not {A} (p : Promise A) : bool := false.

Record Reply (B : Type) := {
  status_code : Z;
  success : bool;
  body : B
}.
Arguments status_code {B} r.
Arguments success {B} r.
Arguments body {B} r.

(** What serving one request leaves behind: the reply of the handler, the
    scheduler, and the exit code if the process was stopped. *)
Record Served (B : Type) := {
  reply : Reply B;
  scheduler : PostScheduler;
  exit_code : option Z
}.
Arguments reply {B} s.
Arguments scheduler {B} s.
Arguments exit_code {B} s.

(** [process.on('unhandledRejection', ...)]: a rejected promise that nobody
    awaits ends in [process.exit(1)]. *)
Definition unhandledRejection (r : ScheduleResult) : option Z :=
  match r with
  | Rejected _ => Some 1
  | Resolved _ => None
  end.

(** [{ ...request.body, scheduledFor: new Date().toISOString() }] *)
Definition with_scheduledFor (now : Timestamp) (postData : PostRequest)
  : PostRequest :=
  {| req_content := req_content postData;
     req_scheduledFor := Some (ValidDate now);
     req_platform := req_platform postData;
     req_tags := req_tags postData |}.

(** [POST /api/posts/publish].  Calling the [async] method cannot throw, so
    the [catch] of the handler is never entered. *)
Definition route_publish (postId : string) (now : Timestamp)
    (postData : PostRequest) (st : PostScheduler)
  : Served (Promise ScheduleResult) :=
  let r := schedulePost postId now (with_scheduledFor now postData) st in
  {| reply := {| status_code := 200; success := true;
                 body := promise (fst r) |};
     scheduler := snd r;
     exit_code := unhandledRejection (fst r) |}.

(** [POST /api/posts/schedule] *)
Definition route_schedule (postId : string) (now : Timestamp)
    (postData : PostRequest) (st : PostScheduler)
  : Served (option (Promise ScheduleResult)) :=
  match req_scheduledFor postData with
  | None =>
      {| reply := {| status_code := 400; success := false; body := None |};
         scheduler := st;
         exit_code := None |}
  | Some _ =>
      let r := schedulePost postId now postData st in
      {| reply := {| status_code := 200; success := true;
                     body := Some (promise (fst r)) |};
         scheduler := snd r;
         exit_code := unhandledRejection (fst r) |}
  end.

(** [GET /api/posts/scheduled]: the awaited posts, sorted with the
    comparator [(a, b) => b.createdAt.getTime() - a.createdAt.getTime()]. *)
Definition route_scheduled (st : PostScheduler)
  : Reply (list ScheduledPost) :=
  {| status_code := 200; success := true;
     body := js_sort (fun a b => createdAt b - createdAt a)
               (getScheduledPosts st) |}.

(** [GET /api/posts/:id] *)
Definition route_get_post (postId : string) (st : PostScheduler)
  : Reply (option (Promise (option ScheduledPost))) :=
  let post := promise (getPostById postId st) in
  if js_not post
  then {| status_code := 404; success := false; body := None |}
  else {| status_code := 200; success := true; body := Some post |}.

(** [DELETE /api/posts/:id] *)
Definition route_delete_post (postId : string) (st : PostScheduler)
  : Served unit :=
  let deleted := promise (fst (deleteScheduledPost postId st)) in
  {| reply :=
       if js_not deleted
       then {| status_code := 404; success := false; body := tt |}
       else {| status_code := 200; success := true; body := tt |};
     scheduler := snd (deleteScheduledPost postId st);
     exit_code := None |}.

(** [GET /api/analytics] and [GET /api/analytics/:id] *)
Definition route_analytics (postId : option string) (st : PostScheduler)
  : Reply AnalyticsResult :=
  {| status_code := 200; success := true; body := getAnalytics postId st |}.

(** ** Vocabulary of the properties *)

(** An attempt whose adapter call succeeded, or that had no adapter to
    call. *)
Definition delivered (twitterClient : TwitterClient) (post : ScheduledPost)
  : Prop :=
  platform post = twitter -> twitterClient (content post) = TweetOk.

Definition with_retry_count (rc : option Z) (post : ScheduledPost)
  : ScheduledPost :=
  {| id := id post; content := content post;
     scheduledFor := scheduledFor post; status := status post;
     createdAt := createdAt post; platform := platform post;
     tags := tags post; retry_count := rc;
     publishedAt := publishedAt post; errorMessage := errorMessage post |}.

Definition retry_timer (due : Timestamp) (post : ScheduledPost) : Timer :=
  {| timer_due := due; timer_post := post |}.

Definition retry_event : string * option EventData :=
  ("retry"%string, Some (DataAttempt 1)).

Definition count_status (s : Status) (rows : list Posts.row) : Z :=
  Z.of_nat (List.length
              (filter (fun r => Status_eqb (Posts.status r) s) rows)).

(** What holds of every row the engine has written: the retry count is
    still the 0 of the insert, the status is not [failed], and
    [published_at] is set exactly on the posted rows. *)
Definition row_ok (r : Posts.row) : Prop :=
  Posts.retry_count r = Some 0
  /\ Posts.status r <> failed
  /\ (Posts.published_at r <> None <-> Posts.status r = posted).

Definition store_ok (st : PostScheduler) : Prop :=
  Forall row_ok (rows_of st) /\ primary_key (rows_of st).

(** What a signal should leave in the log: the post, the type and the
    payload of its event, as [setupEventListeners] wires them. *)
Definition signal_event (sig : Signal) : string * string * option EventData :=
  match sig with
  | post_scheduled post =>
      (id post, "scheduled"%string,
       Some (DataScheduledFor (scheduledFor post)))
  | post_published post => (id post, "published"%string, None)
  | post_failed post error =>
      (id post, "failed"%string, Some (DataError (message error)))
  | post_retrying post attempt =>
      (id post, "retry"%string, Some (DataAttempt attempt))
  end.

Definition logged_event (a : PostAnalytics.row)
  : string * string * option EventData :=
  (PostAnalytics.post_id a, PostAnalytics.event_type a,
   PostAnalytics.event_data a).

(** The events after the first [n] of the log mirror the signals of the
    running scheduler, the ids of the log count up from 1, nothing has
    happened while the database is closed, and only Twitter posts wait on a
    timer. *)
Definition engine_ok_from (n : nat) (st : PostScheduler) : Prop :=
  match db st with
  | None => timers st = [] /\ emitted st = [] /\ n = 0%nat
  | Some d =>
      (n <= List.length (post_analytics d))%nat
      /\ map signal_event (emitted st) =
         map logged_event (skipn n (post_analytics d))
      /\ map PostAnalytics.id (post_analytics d) =
         map Z.of_nat (seq 1 (List.length (post_analytics d)))
  end
  /\ Forall (fun t => platform (timer_post t) = twitter) (timers st).

Definition engine_ok (st : PostScheduler) : Prop :=
  exists n, engine_ok_from n st.

(** The log and the signals of [st'] extend those of [st]. *)
Definition grows (st st' : PostScheduler) : Prop :=
  (exists l, events_of st' = events_of st ++ l)
  /\ (exists l, emitted st' = emitted st ++ l).

(** The columns that no statement of the code ever assigns after the
    insert, and the retry count. *)
Definition same_post (r r' : Posts.row) : Prop :=
  Posts.id r' = Posts.id r
  /\ Posts.content r' = Posts.content r
  /\ Posts.scheduled_for r' = Posts.scheduled_for r
  /\ Posts.created_at r' = Posts.created_at r
  /\ Posts.platform r' = Posts.platform r
  /\ Posts.tags r' = Posts.tags r
  /\ Posts.retry_count r' = Posts.retry_count r.

(** Every stored row of [rows] is still there in [rows'], untouched or
    posted. *)
Definition keeps (rows rows' : list Posts.row) : Prop :=
  forall i r, select_by_id i rows = Some r ->
    exists r', select_by_id i rows' = Some r' /\ same_post r r' /\
               (r' = r \/ Posts.status r' = posted).

(** The database is open. *)
Definition opened (st : PostScheduler) : Prop := exists d, db st = Some d.

(** A row after the [UPDATE] of the [published] listener. *)
Definition published_row (now : Timestamp) (r : Posts.row) : Posts.row :=
  fold_left (fun acc f => apply_field r f acc) (published_fields now) r.

(** ** Sample data *)

Definition sample_request : PostRequest :=
  {| req_content := "hello";
     req_scheduledFor := Some (ValidDate 1000);
     req_platform := twitter;
     req_tags := None |}.

Definition sample_error : JsError := {| message := Some "429"%string |}.

Definition sample_row (postId : string) (s : Status) (created : Timestamp)
    (retries : Z) : Posts.row :=
  {| Posts.id := postId;
     Posts.content := "hello";
     Posts.scheduled_for := 1000;
     Posts.status := s;
     Posts.created_at := created;
     Posts.platform := twitter;
     Posts.tags := None;
     Posts.published_at := None;
     Posts.error_message := None;
     Posts.retry_count := Some retries |}.

(** A server on UTC, and one whose clocks go forward by an hour on
    2026-03-29 at 01:00 UTC; a local time in the hour that is skipped is
    read with the offset before the change. *)
Definition utc_zone : TimeZone :=
  {| offset_of_utc := fun _ => 0; offset_of_local := fun _ => 0 |}.

Definition summer_time_zone : TimeZone :=
  {| offset_of_utc := fun t => if t <? 1774746000000 then 0 else 3600000;
     offset_of_local :=
       fun l => if l <? 1774746000000 + 3600000 then 0 else 3600000 |}.


Definition sample_scheduler (rows : list Posts.row) : PostScheduler :=
  {| db := Some {| posts := rows; post_analytics := [] |};
     timers := [];
     emitted := [] |}.

Definition invalid_request : PostRequest :=
  {| req_content := "hello";
     req_scheduledFor := Some InvalidDate;
     req_platform := twitter;
     req_tags := None |}.

Definition linkedin_post : ScheduledPost :=
  {| id := "a"; content := "hello"; scheduledFor := 1000; status := pending;
     createdAt := 0; platform := linkedin; tags := None;
     retry_count := Some 0; publishedAt := None; errorMessage := None |}.

Definition twitter_post : ScheduledPost :=
  {| id := "a"; content := "hello"; scheduledFor := 1000; status := pending;
     createdAt := 0; platform := twitter; tags := None;
     retry_count := Some 0; publishedAt := None; errorMessage := None |}.

Definition empty_request : PostRequest :=
  {| req_content := "";
     req_scheduledFor := None;
     req_platform := twitter;
     req_tags := None |}.

(** * Properties *)

(** ** ORDER BY *)

Section OrderByFacts.
Context {A : Type} (key : A -> Z).

Lemma insert_by_perm (x : A) (l : list A) :
  Permutation (insert_by key x l) (x :: l).
Proof.
  induction l as [|y l IH]; simpl.
  - apply Permutation_refl.
  - destruct (key x <? key y).
    + apply Permutation_refl.
    + eapply perm_trans; [apply perm_skip, IH | apply perm_swap].
Qed.

Lemma order_by_perm (l : list A) : Permutation (order_by key l) l.
Proof.
  induction l as [|x l IH]; simpl.
  - constructor.
  - eapply perm_trans; [apply insert_by_perm | apply perm_skip, IH].
Qed.

Lemma insert_by_sorted (x : A) (l : list A) :
  StronglySorted (key_le key) l ->
  StronglySorted (key_le key) (insert_by key x l).
Proof.
  induction 1 as [|y l Hs IH Hall]; simpl.
  - repeat constructor.
  - destruct (Z.ltb_spec (key x) (key y)) as [Hlt|Hge].
    + constructor; [constructor; assumption|].
      constructor; [unfold key_le; lia|].
      eapply Forall_impl; [|exact Hall].
      unfold key_le; intros; lia.
    + constructor; [assumption|].
      eapply Permutation_Forall;
        [apply Permutation_sym, insert_by_perm|].
      constructor; [unfold key_le; lia | assumption].
Qed.

Lemma order_by_sorted (l : list A) :
  StronglySorted (key_le key) (order_by key l).
Proof.
  induction l as [|x l IH]; simpl.
  - constructor.
  - apply insert_by_sorted, IH.
Qed.

Lemma order_by_In (l : list A) (x : A) : In x (order_by key l) <-> In x l.
Proof.
  split; apply Permutation_in;
    [apply order_by_perm | apply Permutation_sym, order_by_perm].
Qed.
End OrderByFacts.

Lemma Status_eqb_eq (a b : Status) : Status_eqb a b = true <-> a = b.
Proof. destruct a, b; simpl; split; congruence. Qed.

(** ** The order of the date texts *)

Ltac iso_cases :=
  unfold iso_text_leb, text_leb_clock, iso_shape, real_clock,
    year_0, year_10000 in *;
  repeat match goal with
         | |- context [civil_year ?a] => generalize (civil_year a); intro
         end;
  repeat match goal with
         | |- context [Z.ltb ?x ?y] => destruct (Z.ltb_spec x y)
         | |- context [Z.leb ?x ?y] => destruct (Z.leb_spec x y)
         | |- context [Z.eqb ?x ?y] => destruct (Z.eqb_spec x y)
         end;
  intros; first [discriminate | reflexivity | lia | tauto | idtac].



(** On two texts of four digits the order is that of the instants. *)
Lemma iso_text_leb_four_digits (a b : Timestamp) :
  real_clock a -> real_clock b -> iso_text_leb a b = (a <=? b).
Proof. intros Ha Hb. revert Ha Hb. iso_cases. Qed.

(** So is the strict order, [a < b] being [not (b <= a)]: the comparison
    of [created_at] with the cut-off of the cleanup. *)
Lemma iso_text_ltb_four_digits (a b : Timestamp) :
  real_clock a -> real_clock b -> negb (iso_text_leb b a) = (a <? b).
Proof.
  intros Ha Hb. rewrite (iso_text_leb_four_digits _ _ Hb Ha).
  destruct (Z.leb_spec b a), (Z.ltb_spec a b); simpl; (reflexivity || lia).
Qed.

(** A text with a plus sign is below every text of four digits. *)
Lemma iso_text_leb_plus (a b : Timestamp) :
  year_10000 <= a -> real_clock b -> iso_text_leb a b = true.
Proof. intros Ha Hb. revert Ha Hb. iso_cases. Qed.


Lemma text_leb_clock_iff (t now : Timestamp) :
  real_clock now ->
  (text_leb_clock t now = true <-> t <= now \/ year_10000 <= t).
Proof.
  intros H. revert H. iso_cases; split; intros; try lia; try reflexivity;
    discriminate.
Qed.

Lemma text_leb_clock_le (t now : Timestamp) :
  t <= now -> text_leb_clock t now = true.
Proof. intros H. revert H. iso_cases. Qed.

Section OrderByLebFacts.
Context {A : Type} (leb : A -> A -> bool).

Lemma insert_leb_perm (x : A) (l : list A) :
  Permutation (insert_leb leb x l) (x :: l).
Proof.
  induction l as [|y l IH]; simpl.
  - apply Permutation_refl.
  - destruct (leb x y).
    + apply Permutation_refl.
    + eapply perm_trans; [apply perm_skip, IH | apply perm_swap].
Qed.

Lemma order_by_leb_perm (l : list A) : Permutation (order_by_leb leb l) l.
Proof.
  induction l as [|x l IH]; simpl.
  - constructor.
  - eapply perm_trans; [apply insert_leb_perm | apply perm_skip, IH].
Qed.

Lemma order_by_leb_In (l : list A) (x : A) :
  In x (order_by_leb leb l) <-> In x l.
Proof.
  split; apply Permutation_in;
    [apply order_by_leb_perm | apply Permutation_sym, order_by_leb_perm].
Qed.

Hypothesis leb_total : forall a b, leb a b = true \/ leb b a = true.
Hypothesis leb_trans :
  forall a b c, leb a b = true -> leb b c = true -> leb a c = true.


End OrderByLebFacts.

Lemma is_due_iff (now : Timestamp) (r : Posts.row) :
  is_due now r = true <->
  Posts.status r = pending /\
  text_leb_clock (Posts.scheduled_for r) now = true /\
  exists n, Posts.retry_count r = Some n /\ n < 3.
Proof.
  unfold is_due.
  rewrite !andb_true_iff, Status_eqb_eq.
  destruct (Posts.retry_count r) as [n|].
  - rewrite Z.ltb_lt. split.
    + intros [[Hs Ht] Hn]. repeat split; try assumption. now exists n.
    + intros (Hs & Ht & m & Hm & Hlt). injection Hm as ->. auto.
  - split.
    + intros [_ H]. discriminate.
    + intros (_ & _ & m & Hm & _). discriminate.
Qed.

Lemma is_due_le (now : Timestamp) (r : Posts.row) (n : Z) :
  Posts.status r = pending ->
  Posts.scheduled_for r <= now ->
  Posts.retry_count r = Some n -> n < 3 ->
  is_due now r = true.
Proof.
  intros Hs Ht Hn Hlt. apply is_due_iff.
  split; [exact Hs|]. split; [now apply text_leb_clock_le | eauto].
Qed.

Lemma select_due_In (now : Timestamp) (rows : list Posts.row)
    (r : Posts.row) :
  In r (select_due now rows) <-> In r rows /\ is_due now r = true.
Proof. unfold select_due. rewrite order_by_leb_In. apply filter_In. Qed.

Lemma select_due_single (now : Timestamp) (r : Posts.row) :
  is_due now r = true -> select_due now [r] = [r].
Proof. unfold select_due. simpl. now intros ->. Qed.






(** ** Facts on tables *)

Lemma filter_split {A} (f : A -> bool) (l : list A) :
  Permutation l (filter (fun x => negb (f x)) l ++ filter f l).
Proof.
  induction l as [|x l IH]; simpl.
  - constructor.
  - destruct (f x); simpl.
    + apply Permutation_cons_app, IH.
    + apply perm_skip, IH.
Qed.

Lemma firstn_incl {A} (n : nat) (l : list A) (x : A) :
  In x (firstn n l) -> In x l.
Proof.
  intros H. rewrite <- (firstn_skipn n l). apply in_or_app. now left.
Qed.

Lemma filter_all {A} (f : A -> bool) (l : list A) :
  (forall x, In x l -> f x = true) -> filter f l = l.
Proof.
  induction l as [|x l IH]; simpl; intros H.
  - reflexivity.
  - rewrite (H x) by auto. f_equal. apply IH. auto.
Qed.

Lemma filter_none {A} (f : A -> bool) (l : list A) :
  filter f l = [] -> forall x, In x l -> f x = false.
Proof.
  induction l as [|y l IH]; simpl; intros H x Hin.
  - contradiction.
  - destruct (f y) eqn:Hy; [discriminate|].
    destruct Hin as [<-|Hin]; auto.
Qed.

Lemma select_by_id_some (postId : string) (rows : list Posts.row)
    (r : Posts.row) :
  select_by_id postId rows = Some r -> In r rows /\ Posts.id r = postId.
Proof.
  unfold select_by_id. intros H. apply find_some in H.
  destruct H as [Hin He]. apply String.eqb_eq in He. auto.
Qed.

Lemma select_by_id_none (postId : string) (rows : list Posts.row) :
  select_by_id postId rows = None ->
  forall r, In r rows -> Posts.id r <> postId.
Proof.
  unfold select_by_id. intros H r Hin He.
  apply (find_none _ _ H) in Hin. apply String.eqb_neq in Hin. auto.
Qed.

Lemma select_by_id_unique (rows : list Posts.row) (r : Posts.row) :
  primary_key rows -> In r rows -> select_by_id (Posts.id r) rows = Some r.
Proof.
  unfold primary_key, select_by_id.
  induction rows as [|x rows IH]; simpl; intros Hpk Hin.
  - contradiction.
  - inversion Hpk as [|? ? Hnot Hpk']; subst.
    destruct Hin as [->|Hin].
    + now rewrite String.eqb_refl.
    + destruct (String.eqb_spec (Posts.id x) (Posts.id r)) as [He|_].
      * exfalso. apply Hnot. rewrite He. now apply in_map.
      * now apply IH.
Qed.

Lemma scheduler_eta (st : PostScheduler) (d : Database) :
  db st = Some d -> set_db (set_posts (posts d) d) st = st.
Proof.
  destruct st as [o t e], d as [p a]; simpl. now intros ->.
Qed.

Lemma is_old_iff (tz : TimeZone) (now : Timestamp) (r : Posts.row) :
  is_old tz now r = true <->
  (Posts.status r = posted \/ Posts.status r = failed) /\
  Posts.created_at r < thirtyDaysAgo tz now.
Proof.
  unfold is_old. rewrite andb_true_iff, Z.ltb_lt.
  destruct (Posts.status r); simpl; intuition congruence.
Qed.

Lemma thirtyDaysAgo_shift (tz : TimeZone) (now : Timestamp) :
  thirtyDaysAgo tz now =
  now - 2592000000
  + (offset_of_utc tz now
     - offset_of_local tz (now + offset_of_utc tz now - 2592000000)).
Proof.
  unfold thirtyDaysAgo.
  replace (30 * (24 * 60 * 60 * 1000)) with 2592000000 by reflexivity.
  cbv zeta. lia.
Qed.

Lemma cleanupOldPosts_rows (tz : TimeZone) (now : Timestamp)
    (st : PostScheduler) :
  rows_of (cleanupOldPosts tz now st) =
  filter (fun r => negb (is_old tz now r)) (rows_of st).
Proof.
  unfold cleanupOldPosts, rows_of.
  destruct (db st) as [d|] eqn:Hdb; simpl; [reflexivity | now rewrite Hdb].
Qed.

Lemma cleanupOldPosts_frame (tz : TimeZone) (now : Timestamp)
    (st : PostScheduler) :
  events_of (cleanupOldPosts tz now st) = events_of st
  /\ timers (cleanupOldPosts tz now st) = timers st
  /\ emitted (cleanupOldPosts tz now st) = emitted st.
Proof.
  unfold cleanupOldPosts, events_of.
  destruct (db st) as [d|] eqn:Hdb; simpl; [|rewrite Hdb]; auto.
Qed.

(** ** Maintenance *)

(** A posted row that is 29 days, 23 hours and 30 minutes old on
    2026-04-08 at 01:00 UTC, on a server whose clocks went forward ten days
    before: it is removed. *)
Lemma cleanupOldPosts_within_30_days :
  let now := 1775610000000 in
  let r := sample_row "a" posted (now - 2592000000 + 1800000) 0 in
  now - 2592000000 <= Posts.created_at r
  /\ rows_of (cleanupOldPosts summer_time_zone now (sample_scheduler [r])) = []
  /\ ~ (forall x, In x (rows_of (sample_scheduler [r])) ->
                  now - 2592000000 <= Posts.created_at x ->
                  In x (rows_of (cleanupOldPosts summer_time_zone now
                                   (sample_scheduler [r])))).
Proof.
  intros now r.
  assert (Hrows : rows_of (cleanupOldPosts summer_time_zone now
                             (sample_scheduler [r])) = [])
    by reflexivity.
  split; [cbn; lia|]. split; [exact Hrows|].
  intros H. rewrite Hrows in H. apply (H r); [now left | cbn; lia].
Qed.

(** C8, as the code has it.  [cleanupOldPosts] removes exactly the rows
    that are [posted] or [failed] and were created before the cut-off of
    [setDate(getDate() - 30)]: the instant that has the local time of day
    of the run, 30 days of the calendar earlier.  The table splits into the
    rows that stay and removed rows that are all terminal and older than
    the cut-off; a pending row of any age stays, a row created at or after
    the cut-off stays, and neither the event log nor the timers change.
    The cut-off is 30 times 24 hours (2592000000 ms) before the run plus
    the change of the offset of local time between the two ends, hence
    exactly 2592000000 ms before it when the offset is the same. *)
Theorem cleanupOldPosts_local_days (tz : TimeZone) (now : Timestamp)
    (st : PostScheduler) :
  let st' := cleanupOldPosts tz now st in
  let cutoff := thirtyDaysAgo tz now in
  (forall r, In r (rows_of st') <->
             In r (rows_of st) /\
             ~ ((Posts.status r = posted \/ Posts.status r = failed) /\
                Posts.created_at r < cutoff))
  /\ (exists removed,
        Permutation (rows_of st) (rows_of st' ++ removed) /\
        Forall (fun r => (Posts.status r = posted \/ Posts.status r = failed)
                         /\ Posts.created_at r < cutoff) removed)
  /\ (forall r, In r (rows_of st) -> Posts.status r = pending ->
                In r (rows_of st'))
  /\ (forall r, In r (rows_of st) -> cutoff <= Posts.created_at r ->
                In r (rows_of st'))
  /\ ((forall r, In r (rows_of st) -> Posts.status r = pending) -> st' = st)
  /\ events_of st' = events_of st
  /\ timers st' = timers st
  /\ emitted st' = emitted st
  /\ cutoff =
     now - 2592000000
     + (offset_of_utc tz now
        - offset_of_local tz (now + offset_of_utc tz now - 2592000000))
  /\ (offset_of_local tz (now + offset_of_utc tz now - 2592000000)
      = offset_of_utc tz now ->
      cutoff = now - 2592000000).
Proof.
  intros st' cutoff.
  pose proof (cleanupOldPosts_rows tz now st) as Hrows. fold st' in Hrows.
  assert (Hin : forall r, In r (rows_of st') <->
                          In r (rows_of st) /\
                          ~ ((Posts.status r = posted \/
                              Posts.status r = failed) /\
                             Posts.created_at r < cutoff)).
  { intros r. unfold cutoff.
    rewrite Hrows, filter_In, negb_true_iff, <- is_old_iff.
    destruct (is_old tz now r); intuition congruence. }
  split; [exact Hin|].
  split.
  { exists (filter (is_old tz now) (rows_of st)). split.
    - rewrite Hrows. apply filter_split.
    - apply Forall_forall. intros r Hr.
      apply filter_In in Hr. now apply is_old_iff. }
  split.
  { intros r Hr Hs. apply Hin. split; [assumption|].
    intros [[H|H] _]; congruence. }
  split.
  { intros r Hr Hc. apply Hin. split; [assumption|]. intros [_ H]. lia. }
  split.
  { intros Hall. unfold st', cleanupOldPosts.
    destruct (db st) as [d|] eqn:Hdb; [|reflexivity].
    rewrite filter_all.
    - now apply scheduler_eta.
    - intros r Hr. apply negb_true_iff.
      destruct (is_old tz now r) eqn:Ho; [|reflexivity].
      apply is_old_iff in Ho. destruct Ho as [[H|H] _];
        (unfold rows_of in Hall; rewrite Hdb in Hall;
         rewrite (Hall r Hr) in H; discriminate). }
  destruct (cleanupOldPosts_frame tz now st) as (He & Ht & Hem).
  fold st' in He, Ht, Hem.
  split; [exact He|]. split; [exact Ht|]. split; [exact Hem|].
  unfold cutoff. rewrite thirtyDaysAgo_shift.
  split; [reflexivity|]. intros ->. lia.
Qed.

Lemma cleanupOldPosts_local_days_witness :
  thirtyDaysAgo utc_zone 5000000000 = 5000000000 - 2592000000
  /\ In (sample_row "a" pending 0 0)
        (rows_of (cleanupOldPosts utc_zone 5000000000
                    (sample_scheduler [sample_row "a" pending 0 0;
                                       sample_row "b" posted 0 0]))).
Proof.
  split.
  - apply (proj2 (proj2 (proj2 (proj2 (proj2 (proj2 (proj2 (proj2 (proj2
             (cleanupOldPosts_local_days utc_zone 5000000000
                (sample_scheduler []))))))))))).
    reflexivity.
  - apply (proj1 (proj2 (proj2
             (cleanupOldPosts_local_days utc_zone 5000000000
                (sample_scheduler [sample_row "a" pending 0 0;
                                   sample_row "b" posted 0 0]))))
             (sample_row "a" pending 0 0)
             (or_introl eq_refl) eq_refl).
Defined.

(** ** deleteScheduledPost *)

Lemma delete_hit_iff (postId : string) (r : Posts.row) :
  delete_hit postId r = true <->
  Posts.id r = postId /\ Posts.status r = pending.
Proof.
  unfold delete_hit. now rewrite andb_true_iff, String.eqb_eq, Status_eqb_eq.
Qed.

Lemma deleteScheduledPost_rows (postId : string) (st : PostScheduler) :
  rows_of (snd (deleteScheduledPost postId st)) =
  filter (fun r => negb (delete_hit postId r)) (rows_of st).
Proof.
  unfold deleteScheduledPost, rows_of.
  destruct (db st) as [d|] eqn:Hdb; simpl; [reflexivity | now rewrite Hdb].
Qed.

Lemma deleteScheduledPost_changes (postId : string) (st : PostScheduler) :
  fst (deleteScheduledPost postId st) = true <->
  exists r, In r (rows_of st) /\ delete_hit postId r = true.
Proof.
  unfold deleteScheduledPost, rows_of.
  destruct (db st) as [d|]; simpl.
  - destruct (filter (delete_hit postId) (posts d)) as [|x l] eqn:Hf.
    + split; [discriminate|].
      intros (r & Hin & Hr).
      rewrite (filter_none _ _ Hf r Hin) in Hr. discriminate.
    + split; [|intros _; apply Z.ltb_lt; simpl; lia].
      intros _. exists x. apply filter_In. rewrite Hf. now left.
  - split; [discriminate | intros (r & [] & _)].
Qed.

(** C6.  On a table that obeys its primary key, [deleteScheduledPost]
    returns [true] exactly when the row of that id exists and is [pending];
    it then removes that row and keeps all the others.  When it returns
    [false] the scheduler is unchanged, which is the case for every row that
    is [posted] or [failed]. *)
Theorem deleteScheduledPost_pending_only (postId : string)
    (st : PostScheduler) (Hpk : primary_key (rows_of st)) :
  let deleted := fst (deleteScheduledPost postId st) in
  let st' := snd (deleteScheduledPost postId st) in
  (deleted = true <->
   exists r, select_by_id postId (rows_of st) = Some r /\
             Posts.status r = pending)
  /\ (deleted = true ->
      select_by_id postId (rows_of st') = None /\
      forall r, In r (rows_of st') <->
                In r (rows_of st) /\ Posts.id r <> postId)
  /\ (deleted = false -> st' = st)
  /\ (forall r, select_by_id postId (rows_of st) = Some r ->
                Posts.status r = posted \/ Posts.status r = failed ->
                deleted = false /\ st' = st /\
                select_by_id postId (rows_of st') = Some r).
Proof.
  intros deleted st'.
  assert (Hiff : deleted = true <->
                 exists r, select_by_id postId (rows_of st) = Some r /\
                           Posts.status r = pending).
  { unfold deleted. rewrite deleteScheduledPost_changes. split.
    - intros (r & Hin & Hr). apply delete_hit_iff in Hr.
      destruct Hr as [<- Hs]. exists r.
      split; [now apply select_by_id_unique | assumption].
    - intros (r & Hsel & Hs). apply select_by_id_some in Hsel.
      destruct Hsel as [Hin He]. exists r.
      split; [assumption | now apply delete_hit_iff]. }
  assert (Hfalse : deleted = false -> st' = st).
  { unfold deleted, st'. intros Hd.
    assert (Hno : forall r, In r (rows_of st) ->
                            delete_hit postId r = false).
    { intros r Hin. destruct (delete_hit postId r) eqn:Hr; [|reflexivity].
      assert (Ht : fst (deleteScheduledPost postId st) = true)
        by (apply deleteScheduledPost_changes; eauto).
      congruence. }
    unfold deleteScheduledPost, rows_of in *.
    destruct (db st) as [d|] eqn:Hdb; simpl; [|reflexivity].
    rewrite filter_all.
    - now apply scheduler_eta.
    - intros r Hin. now rewrite Hno. }
  split; [exact Hiff|]. split; [|split; [exact Hfalse|]].
  - intros Hd. apply Hiff in Hd. destruct Hd as (r0 & Hsel & Hs0).
    apply select_by_id_some in Hsel. destruct Hsel as [Hin0 He0].
    assert (Hin : forall r, In r (rows_of st') <->
                            In r (rows_of st) /\ Posts.id r <> postId).
    { intros r. unfold st'.
      rewrite deleteScheduledPost_rows, filter_In, negb_true_iff.
      split.
      - intros [Hin Hr]. split; [assumption|]. intros He.
        assert (r = r0).
        { pose proof (select_by_id_unique _ _ Hpk Hin) as H1.
          pose proof (select_by_id_unique _ _ Hpk Hin0) as H2.
          rewrite He in H1. rewrite He0 in H2. congruence. }
        subst r0.
        assert (delete_hit postId r = true) by now apply delete_hit_iff.
        congruence.
      - intros [Hin Hne]. split; [assumption|].
        destruct (delete_hit postId r) eqn:Hr; [|reflexivity].
        apply delete_hit_iff in Hr. tauto. }
    split; [|exact Hin].
    destruct (select_by_id postId (rows_of st')) as [r|] eqn:Hsel;
      [|reflexivity].
    apply select_by_id_some in Hsel. destruct Hsel as [Hr He].
    apply Hin in Hr. tauto.
  - intros r Hsel Hs.
    assert (Hd : deleted = false).
    { apply not_true_is_false. intros Hd.
      apply Hiff in Hd. destruct Hd as (r' & Hsel' & Hs').
      rewrite Hsel in Hsel'. injection Hsel' as <-.
      destruct Hs; congruence. }
    split; [assumption|]. rewrite (Hfalse Hd). auto.
Qed.

Lemma sample_primary_key :
  primary_key [sample_row "a" pending 0 0; sample_row "b" posted 0 0].
Proof.
  unfold primary_key. simpl.
  constructor.
  - simpl. intros [H|[]]. discriminate.
  - constructor; [intros [] | constructor].
Defined.

Lemma deleteScheduledPost_pending_only_witness :
  fst (deleteScheduledPost "b"
         (sample_scheduler [sample_row "a" pending 0 0;
                            sample_row "b" posted 0 0])) = false.
Proof.
  apply (proj2 (proj2 (proj2
           (deleteScheduledPost_pending_only "b"
              (sample_scheduler [sample_row "a" pending 0 0;
                                 sample_row "b" posted 0 0])
              sample_primary_key)))
           (sample_row "b" posted 0 0) eq_refl (or_introl eq_refl)).
Defined.

(** ** getAnalytics *)

Lemma sum_case_status (s : Status) (rows : list Posts.row) :
  fold_right (fun r acc => case_status s r + acc) 0 rows =
  count_status s rows.
Proof.
  unfold count_status, case_status.
  induction rows as [|r rows IH]; simpl; [reflexivity|].
  rewrite IH. destruct (Status_eqb (Posts.status r) s); simpl List.length; lia.
Qed.

Lemma select_stats_counts (rows : list Posts.row) :
  Stats.total_posts (select_stats rows) = Z.of_nat (List.length rows)
  /\ (rows <> [] ->
      Stats.published (select_stats rows) = Some (count_status posted rows) /\
      Stats.pending (select_stats rows) = Some (count_status pending rows) /\
      Stats.failed (select_stats rows) = Some (count_status failed rows)).
Proof.
  split; [reflexivity|].
  intros Hne. unfold select_stats, sql_sum; simpl.
  destruct rows as [|r rows]; [congruence|].
  now rewrite !sum_case_status.
Qed.

(** C10.  The statistics that [getAnalytics] returns do not depend on its
    argument: with or without an id they are the counts over the whole
    [posts] table (the number of rows and, on a table that is not empty, the
    numbers of posted, pending and failed rows).  The id only restricts the
    list of events: every event returned for an id belongs to that id. *)
Theorem getAnalytics_stats_unfiltered (postId : option string)
    (st : PostScheduler) :
  stats_of (getAnalytics postId st) = stats_of (getAnalytics None st)
  /\ stats_of (getAnalytics postId st) =
     option_map (fun d => select_stats (posts d)) (db st)
  /\ (forall s, stats_of (getAnalytics postId st) = Some s ->
        Stats.total_posts s = Z.of_nat (List.length (rows_of st)) /\
        (rows_of st <> [] ->
         Stats.published s = Some (count_status posted (rows_of st)) /\
         Stats.pending s = Some (count_status pending (rows_of st)) /\
         Stats.failed s = Some (count_status failed (rows_of st))))
  /\ (forall j, In j (analytics_of (getAnalytics postId st)) ->
        (exists d, db st = Some d /\ In j (join_posts d)) /\
        forall i, truthy postId = Some i ->
                  PostAnalytics.post_id (Joined.pa j) = i).
Proof.
  unfold getAnalytics, rows_of.
  destruct (db st) as [d|]; cbn [stats_of analytics_of option_map].
  - split; [reflexivity|]. split; [reflexivity|]. split.
    + intros s [= <-]. apply select_stats_counts.
    + intros j Hj. apply firstn_incl in Hj.
      apply order_by_In in Hj.
      destruct (truthy postId) as [i|].
      * apply filter_In in Hj. destruct Hj as [Hj He].
        apply String.eqb_eq in He.
        split; [eauto|]. now intros i' [= <-].
      * split; [eauto | discriminate].
  - repeat split; try discriminate; contradiction.
Qed.

(** ** UPDATE *)

Lemma apply_fields_id (old : Posts.row) (fields : list UpdateField)
    (r : Posts.row) :
  Posts.id (fold_left (fun acc f => apply_field old f acc) fields r) =
  Posts.id r.
Proof.
  revert r. induction fields as [|f fields IH]; intros r; simpl.
  - reflexivity.
  - rewrite IH. now destruct f.
Qed.

Lemma sql_update_ids (fields : list UpdateField) (postId : string)
    (rows : list Posts.row) :
  map Posts.id (sql_update fields postId rows) = map Posts.id rows.
Proof.
  unfold sql_update. rewrite map_map. apply map_ext. intros r.
  destruct (String.eqb (Posts.id r) postId); [apply apply_fields_id|easy].
Qed.

Lemma sql_update_select (fields : list UpdateField) (postId : string)
    (rows : list Posts.row) (r : Posts.row) :
  select_by_id postId rows = Some r ->
  select_by_id postId (sql_update fields postId rows) =
  Some (fold_left (fun acc f => apply_field r f acc) fields r).
Proof.
  unfold select_by_id, sql_update.
  induction rows as [|x rows IH]; simpl; [discriminate|].
  destruct (String.eqb (Posts.id x) postId) eqn:He.
  - intros [= ->]. now rewrite apply_fields_id, He.
  - rewrite He. exact IH.
Qed.

Lemma sql_update_absent (fields : list UpdateField) (postId : string)
    (rows : list Posts.row) :
  select_by_id postId rows = None -> sql_update fields postId rows = rows.
Proof.
  intros H. unfold sql_update.
  rewrite <- (map_id rows) at 2. apply map_ext_in. intros r Hin.
  apply (select_by_id_none _ _ H) in Hin.
  apply String.eqb_neq in Hin. now rewrite Hin.
Qed.

Lemma sql_update_In (fields : list UpdateField) (postId : string)
    (rows : list Posts.row) (r' : Posts.row) :
  In r' (sql_update fields postId rows) ->
  exists r, In r rows /\
    (r' = r \/
     r' = fold_left (fun acc f => apply_field r f acc) fields r).
Proof.
  unfold sql_update. intros H. apply in_map_iff in H.
  destruct H as (r & He & Hin). exists r. split; [assumption|].
  destruct (String.eqb (Posts.id r) postId); subst; auto.
Qed.

(** ** The listeners, one signal at a time *)

Lemma emit_published (now : Timestamp) (post : ScheduledPost)
    (st : PostScheduler) (d : Database) :
  db st = Some d ->
  emit now (post_published post) st =
  {| db := Some
       {| posts := sql_update (published_fields now) (id post) (posts d);
          post_analytics :=
            post_analytics d ++ [event_row d now (id post) "published" None] |};
     timers := timers st;
     emitted := emitted st ++ [post_published post] |}.
Proof.
  destruct st as [o t e]; simpl. intros ->. reflexivity.
Qed.

Lemma emit_failed (now : Timestamp) (post : ScheduledPost) (error : JsError)
    (st : PostScheduler) (d : Database) :
  db st = Some d ->
  emit now (post_failed post error) st =
  {| db := Some
       {| posts := sql_update (failed_fields error) (id post) (posts d);
          post_analytics :=
            post_analytics d ++
            [event_row d now (id post) "failed"
               (Some (DataError (message error)))] |};
     timers := timers st;
     emitted := emitted st ++ [post_failed post error] |}.
Proof.
  destruct st as [o t e]; simpl. intros ->. reflexivity.
Qed.

Lemma emit_retrying (now : Timestamp) (post : ScheduledPost) (attempt : Z)
    (st : PostScheduler) (d : Database) :
  db st = Some d ->
  emit now (post_retrying post attempt) st =
  {| db := Some
       {| posts := posts d;
          post_analytics :=
            post_analytics d ++
            [event_row d now (id post) "retry" (Some (DataAttempt attempt))] |};
     timers := timers st;
     emitted := emitted st ++ [post_retrying post attempt] |}.
Proof.
  destruct st as [o t e]; simpl. intros ->. reflexivity.
Qed.

Lemma emit_scheduled (now : Timestamp) (post : ScheduledPost)
    (st : PostScheduler) (d : Database) :
  db st = Some d ->
  emit now (post_scheduled post) st =
  {| db := Some
       {| posts := posts d;
          post_analytics :=
            post_analytics d ++
            [event_row d now (id post) "scheduled"
               (Some (DataScheduledFor (scheduledFor post)))] |};
     timers := timers st;
     emitted := emitted st ++ [post_scheduled post] |}.
Proof.
  destruct st as [o t e]; simpl. intros ->. reflexivity.
Qed.

Lemma emit_no_db (now : Timestamp) (sig : Signal) (st : PostScheduler) :
  db st = None ->
  emit now sig st =
  {| db := None; timers := timers st; emitted := emitted st ++ [sig] |}.
Proof.
  destruct st as [o t e]; simpl. intros ->. now destruct sig.
Qed.

Lemma getPostById_rows (postId : string) (st : PostScheduler) :
  getPostById postId st =
  option_map post_of_row (select_by_id postId (rows_of st)).
Proof.
  unfold getPostById, rows_of. now destruct (db st).
Qed.

Lemma publishPost_delivered (twitterClient : TwitterClient)
    (now : Timestamp) (post : ScheduledPost) (st : PostScheduler) :
  delivered twitterClient post ->
  publishPost twitterClient now post st = emit now (post_published post) st.
Proof.
  unfold delivered, publishPost, publishToTwitter. intros H.
  destruct (platform post); [now rewrite H | reflexivity | reflexivity].
Qed.

(** What the [published] listener leaves behind for a stored post. *)
Lemma published_effect (now : Timestamp) (post : ScheduledPost)
    (st : PostScheduler) (d : Database) (r : Posts.row) :
  db st = Some d ->
  select_by_id (id post) (posts d) = Some r ->
  let st' := emit now (post_published post) st in
  (exists r',
      select_by_id (id post) (rows_of st') = Some r' /\
      Posts.status r' = posted /\
      Posts.published_at r' = Some now /\
      Posts.error_message r' = None /\
      Posts.retry_count r' = Posts.retry_count r /\
      Posts.id r' = Posts.id r /\
      Posts.content r' = Posts.content r /\
      Posts.scheduled_for r' = Posts.scheduled_for r /\
      Posts.created_at r' = Posts.created_at r /\
      Posts.platform r' = Posts.platform r /\
      Posts.tags r' = Posts.tags r)
  /\ events_of st' =
     events_of st ++ [event_row d now (id post) "published" None]
  /\ emitted st' = emitted st ++ [post_published post]
  /\ timers st' = timers st.
Proof.
  intros Hdb Hsel st'. unfold st'.
  rewrite (emit_published _ _ _ _ Hdb).
  unfold rows_of, events_of; simpl. rewrite Hdb.
  split; [|auto].
  eexists. split.
  - apply sql_update_select, Hsel.
  - simpl. repeat split.
Qed.

(** ** Channels without an adapter *)

(** C4.  For a stored post whose platform is [linkedin] or [instagram] the
    publish attempt never consults the Twitter client: whatever the client
    would answer, the flow is the one of a successful delivery.  It emits
    [post:published], the row becomes [posted] with [published_at] set to
    the time of the attempt, and one [published] event is logged. *)
Theorem publishPost_without_adapter (twitterClient : TwitterClient)
    (now : Timestamp) (post : ScheduledPost) (st : PostScheduler)
    (d : Database) (r : Posts.row)
    (Hdb : db st = Some d)
    (Hplatform : platform post = linkedin \/ platform post = instagram)
    (Hrow : select_by_id (id post) (posts d) = Some r) :
  let st' := publishPost twitterClient now post st in
  st' = emit now (post_published post) st
  /\ (forall post', platform post' = twitter ->
        twitterClient (content post') = TweetOk ->
        publishPost twitterClient now post' st =
        emit now (post_published post') st)
  /\ emitted st' = emitted st ++ [post_published post]
  /\ (exists r',
        select_by_id (id post) (rows_of st') = Some r' /\
        Posts.status r' = posted /\
        Posts.published_at r' = Some now)
  /\ events_of st' =
     events_of st ++ [event_row d now (id post) "published" None]
  /\ timers st' = timers st.
Proof.
  intros st'.
  assert (He : st' = emit now (post_published post) st).
  { apply publishPost_delivered. intros Ht.
    destruct Hplatform; congruence. }
  split; [exact He|]. split.
  { intros post' Ht Hok. apply publishPost_delivered. now intros _. }
  rewrite He.
  destruct (published_effect now post st d r Hdb Hrow)
    as ((r' & Hsel & Hs & Hp & _) & Hev & Hem & Ht).
  repeat split; try assumption. now exists r'.
Qed.

Lemma publishPost_without_adapter_witness :
  emitted (publishPost (always_failing sample_error) 5000 linkedin_post
             (sample_scheduler [sample_row "a" pending 0 0])) =
  [post_published linkedin_post].
Proof.
  apply (proj1 (proj2 (proj2
           (publishPost_without_adapter (always_failing sample_error) 5000
              linkedin_post (sample_scheduler [sample_row "a" pending 0 0])
              {| posts := [sample_row "a" pending 0 0];
                 post_analytics := [] |}
              (sample_row "a" pending 0 0)
              eq_refl (or_introl eq_refl) eq_refl)))).
Defined.

(** ** Invariants of the reachable states *)

Lemma store_ok_rows (st st' : PostScheduler) :
  rows_of st' = rows_of st -> store_ok st -> store_ok st'.
Proof. unfold store_ok. now intros ->. Qed.

Lemma published_fields_ok (now : Timestamp) (r : Posts.row) :
  row_ok r ->
  row_ok (fold_left (fun acc f => apply_field r f acc)
            (published_fields now) r).
Proof.
  intros (Hrc & _ & _). unfold row_ok; simpl.
  repeat split; try congruence.
Qed.

Lemma store_ok_update_published (now : Timestamp) (postId : string)
    (rows : list Posts.row) :
  Forall row_ok rows /\ primary_key rows ->
  Forall row_ok (sql_update (published_fields now) postId rows) /\
  primary_key (sql_update (published_fields now) postId rows).
Proof.
  intros [Hall Hpk]. split.
  - apply Forall_forall. intros r' Hin.
    apply sql_update_In in Hin. destruct Hin as (r & Hr & [->| ->]).
    + eapply Forall_forall; eauto.
    + apply published_fields_ok. eapply Forall_forall; eauto.
  - unfold primary_key. now rewrite sql_update_ids.
Qed.

Lemma rows_of_emit_published (now : Timestamp) (post : ScheduledPost)
    (st : PostScheduler) :
  rows_of (emit now (post_published post) st) =
  sql_update (published_fields now) (id post) (rows_of st).
Proof.
  destruct (db st) as [d|] eqn:Hdb.
  - rewrite (emit_published _ _ _ _ Hdb). unfold rows_of. now rewrite Hdb.
  - rewrite (emit_no_db _ _ _ Hdb). unfold rows_of. now rewrite Hdb.
Qed.

Lemma rows_of_emit_failed (now : Timestamp) (post : ScheduledPost)
    (error : JsError) (st : PostScheduler) :
  rows_of (emit now (post_failed post error) st) =
  sql_update (failed_fields error) (id post) (rows_of st).
Proof.
  destruct (db st) as [d|] eqn:Hdb.
  - rewrite (emit_failed _ _ _ _ _ Hdb). unfold rows_of. now rewrite Hdb.
  - rewrite (emit_no_db _ _ _ Hdb). unfold rows_of. now rewrite Hdb.
Qed.

Lemma rows_of_emit_retrying (now : Timestamp) (post : ScheduledPost)
    (attempt : Z) (st : PostScheduler) :
  rows_of (emit now (post_retrying post attempt) st) = rows_of st.
Proof.
  destruct (db st) as [d|] eqn:Hdb.
  - rewrite (emit_retrying _ _ _ _ _ Hdb). unfold rows_of. now rewrite Hdb.
  - rewrite (emit_no_db _ _ _ Hdb). unfold rows_of. now rewrite Hdb.
Qed.

Lemma rows_of_emit_scheduled (now : Timestamp) (post : ScheduledPost)
    (st : PostScheduler) :
  rows_of (emit now (post_scheduled post) st) = rows_of st.
Proof.
  destruct (db st) as [d|] eqn:Hdb.
  - rewrite (emit_scheduled _ _ _ _ Hdb). unfold rows_of. now rewrite Hdb.
  - rewrite (emit_no_db _ _ _ Hdb). unfold rows_of. now rewrite Hdb.
Qed.

(** The three outcomes of a publish attempt, on the [posts] table. *)
Lemma rows_of_publishPost (twitterClient : TwitterClient) (now : Timestamp)
    (post : ScheduledPost) (st : PostScheduler) :
  let rows' := rows_of (publishPost twitterClient now post st) in
  rows' = sql_update (published_fields now) (id post) (rows_of st)
  \/ (rows' = rows_of st /\
      exists r, select_by_id (id post) (rows_of st) = Some r /\
                nullish (Posts.retry_count r) 0 < 3)
  \/ (exists error,
        rows' = sql_update (failed_fields error) (id post) (rows_of st) /\
        (select_by_id (id post) (rows_of st) = None \/
         exists r, select_by_id (id post) (rows_of st) = Some r /\
                   3 <= nullish (Posts.retry_count r) 0)).
Proof.
  unfold publishPost.
  destruct (match platform post with
            | twitter => publishToTwitter twitterClient post
            | _ => TweetOk
            end) as [|error].
  - left. apply rows_of_emit_published.
  - right. rewrite getPostById_rows.
    destruct (select_by_id (id post) (rows_of st)) as [r|] eqn:Hsel; simpl.
    + destruct (Z.ltb_spec (nullish (Posts.retry_count r) 0) 3).
      * left. split; [|eauto].
        unfold setTimeout, rows_of; simpl.
        apply rows_of_emit_retrying.
      * right. exists error. split; [apply rows_of_emit_failed | eauto].
    + right. exists error. split; [apply rows_of_emit_failed | auto].
Qed.

Lemma publishPost_store_ok (twitterClient : TwitterClient) (now : Timestamp)
    (post : ScheduledPost) (st : PostScheduler) :
  store_ok st -> store_ok (publishPost twitterClient now post st).
Proof.
  intros Hok. unfold store_ok.
  destruct (rows_of_publishPost twitterClient now post st)
    as [-> | [[-> _] | (error & -> & [Hnone | (r & Hsel & Hge)])]].
  - now apply store_ok_update_published.
  - exact Hok.
  - now rewrite sql_update_absent.
  - exfalso. destruct Hok as [Hall _].
    apply select_by_id_some in Hsel. destruct Hsel as [Hin _].
    pose proof (proj1 (Forall_forall _ _) Hall r Hin) as (Hrc & _).
    rewrite Hrc in Hge. simpl in Hge. lia.
Qed.

Lemma fold_publish_store_ok (twitterClient : TwitterClient)
    (now : Timestamp) (due : list Posts.row) (st : PostScheduler) :
  store_ok st ->
  store_ok
    (fold_left
       (fun s dbPost =>
          publishPost twitterClient now (post_of_due_row dbPost) s) due st).
Proof.
  revert st. induction due as [|x due IH]; intros st Hok; simpl.
  - exact Hok.
  - apply IH. now apply publishPost_store_ok.
Qed.

Lemma scheduler_tick_store_ok (twitterClient : TwitterClient)
    (now : Timestamp) (st : PostScheduler) :
  store_ok st -> store_ok (scheduler_tick twitterClient now st).
Proof.
  unfold scheduler_tick. destruct (db st); [|easy].
  apply fold_publish_store_ok.
Qed.

Lemma fire_timer_store_ok (twitterClient : TwitterClient) (now : Timestamp)
    (k : nat) (st : PostScheduler) :
  store_ok st -> store_ok (fire_timer twitterClient now k st).
Proof.
  unfold fire_timer. intros Hok.
  destruct (nth_error (timers st) k) as [t|]; [|exact Hok].
  destruct (timer_due t <=? now); [|exact Hok].
  apply publishPost_store_ok. exact Hok.
Qed.

Lemma store_ok_filter (f : Posts.row -> bool) (rows : list Posts.row) :
  Forall row_ok rows /\ primary_key rows ->
  Forall row_ok (filter f rows) /\ primary_key (filter f rows).
Proof.
  intros [Hall Hpk]. split.
  - apply Forall_forall. intros r Hin. apply filter_In in Hin.
    eapply Forall_forall; [exact Hall | tauto].
  - unfold primary_key in *. clear Hall.
    induction rows as [|x rows IH]; simpl; [constructor|].
    inversion Hpk as [|? ? Hnot Hpk']; subst.
    destruct (f x); simpl; [|now apply IH].
    constructor; [|now apply IH].
    intros Hin. apply Hnot. apply in_map_iff in Hin.
    destruct Hin as (y & He & Hy). apply filter_In in Hy.
    apply in_map_iff. exists y. tauto.
Qed.

Lemma cleanupOldPosts_store_ok (tz : TimeZone) (now : Timestamp)
    (st : PostScheduler) :
  store_ok st -> store_ok (cleanupOldPosts tz now st).
Proof.
  unfold store_ok, cleanupOldPosts, rows_of.
  destruct (db st) as [d|] eqn:Hdb; simpl; [|now rewrite Hdb].
  apply store_ok_filter.
Qed.

Lemma deleteScheduledPost_store_ok (postId : string) (st : PostScheduler) :
  store_ok st -> store_ok (snd (deleteScheduledPost postId st)).
Proof.
  unfold store_ok. rewrite deleteScheduledPost_rows. apply store_ok_filter.
Qed.

Lemma existsb_id_false (postId : string) (rows : list Posts.row) :
  existsb (fun r => String.eqb (Posts.id r) postId) rows = false ->
  ~ In postId (map Posts.id rows).
Proof.
  intros H Hin. apply in_map_iff in Hin. destruct Hin as (r & He & Hr).
  assert (Ht : existsb (fun r => String.eqb (Posts.id r) postId) rows = true).
  { apply existsb_exists. exists r. split; [assumption|].
    now apply String.eqb_eq. }
  congruence.
Qed.

Lemma schedulePost_store_ok (postId : string) (now : Timestamp)
    (postData : PostRequest) (st : PostScheduler) :
  store_ok st -> store_ok (snd (schedulePost postId now postData st)).
Proof.
  intros Hok. unfold schedulePost.
  destruct (db st) as [d|] eqn:Hdb; [|exact Hok].
  destruct (nullish (req_scheduledFor postData) (ValidDate now));
    [|exact Hok].
  destruct (existsb _ (posts d)) eqn:Hex; [exact Hok|].
  cbn [snd]. unfold store_ok in *. rewrite rows_of_emit_scheduled.
  unfold rows_of in *; simpl. rewrite Hdb in Hok. destruct Hok as [Hall Hpk].
  split.
  - apply Forall_app. split; [assumption|].
    constructor; [|constructor].
    unfold row_ok; simpl. repeat split; congruence.
  - unfold primary_key in *. rewrite map_app. simpl.
    apply NoDup_app_remove_l with (l := []). simpl.
    apply Permutation_NoDup with (l := postId :: map Posts.id (posts d)).
    + apply Permutation_cons_append.
    + constructor; [now apply existsb_id_false | assumption].
Qed.

Lemma step_store_ok (st : PostScheduler) (op : Op) :
  store_ok st -> store_ok (step st op).
Proof.
  destruct op; simpl.
  - unfold initDatabase, open_database. destruct (db st) eqn:Hdb; [easy|].
    intros _. unfold store_ok, rows_of; simpl.
    split; constructor.
  - apply schedulePost_store_ok.
  - apply scheduler_tick_store_ok.
  - apply fire_timer_store_ok.
  - apply cleanupOldPosts_store_ok.
  - apply schedulePost_store_ok.
  - apply deleteScheduledPost_store_ok.
  - easy.
Qed.

Lemma run_store_ok (ops : list Op) (st : PostScheduler) :
  store_ok st -> store_ok (run ops st).
Proof.
  unfold run. revert st.
  induction ops as [|op ops IH]; intros st Hok; simpl.
  - exact Hok.
  - apply IH. now apply step_store_ok.
Qed.

Lemma run_snoc (ops : list Op) (op : Op) (st : PostScheduler) :
  run (ops ++ [op]) st = step (run ops st) op.
Proof. unfold run. now rewrite fold_left_app. Qed.

Lemma run_lifetimes_snoc (later : list (list Op)) (ops : list Op)
    (st : PostScheduler) :
  run_lifetimes (later ++ [ops]) st =
  run ops (restart (run_lifetimes later st)).
Proof. unfold run_lifetimes. now rewrite fold_left_app. Qed.

Lemma reachable_run (ops : list Op) : reachable (run ops constructed).
Proof. exists ops, []. reflexivity. Qed.

Lemma step_reachable (st : PostScheduler) (op : Op) :
  reachable st -> reachable (step st op).
Proof.
  intros (first & later & ->).
  destruct later as [|l later] using rev_ind.
  - exists (first ++ [op]), []. cbn. now rewrite run_snoc.
  - exists first, (later ++ [l ++ [op]]).
    now rewrite !run_lifetimes_snoc, run_snoc.
Qed.

Lemma restart_reachable (st : PostScheduler) :
  reachable st -> reachable (restart st).
Proof.
  intros (first & later & ->). exists first, (later ++ [[]]).
  now rewrite run_lifetimes_snoc.
Qed.

(** What holds of the constructed scheduler and is kept by every operation
    and by a restart holds of every reachable state. *)
Lemma reachable_invariant (P : PostScheduler -> Prop) :
  P constructed ->
  (forall st op, P st -> P (step st op)) ->
  (forall st, P st -> P (restart st)) ->
  forall st, reachable st -> P st.
Proof.
  intros H0 Hstep Hrestart st (first & later & ->).
  assert (Hrun : forall ops s, P s -> P (run ops s)).
  { unfold run. induction ops as [|op ops IH]; intros s Hs; simpl.
    - exact Hs.
    - apply IH, Hstep, Hs. }
  unfold run_lifetimes.
  generalize (Hrun first constructed H0). generalize (run first constructed).
  induction later as [|ops later IH]; intros s Hs; simpl.
  - exact Hs.
  - apply IH, Hrun, Hrestart, Hs.
Qed.

Lemma restart_rows (st : PostScheduler) : rows_of (restart st) = rows_of st.
Proof. unfold restart, open_database, rows_of. now destruct (db st). Qed.

Lemma reachable_store_ok (st : PostScheduler) :
  reachable st -> store_ok st.
Proof.
  apply reachable_invariant.
  - unfold store_ok, rows_of; simpl. split; constructor.
  - intros s op. apply step_store_ok.
  - intros s. apply store_ok_rows, restart_rows.
Qed.

(** ** Successful attempts *)

Lemma event_row_fields (d : Database) (st : PostScheduler)
    (now : Timestamp) (postId eventType : string)
    (eventData : option EventData) :
  db st = Some d ->
  event_row d now postId eventType eventData =
  {| PostAnalytics.id := Z.of_nat (List.length (events_of st)) + 1;
     PostAnalytics.post_id := postId;
     PostAnalytics.event_type := eventType;
     PostAnalytics.event_data := eventData;
     PostAnalytics.created_at := now / 1000 |}.
Proof. unfold events_of. now intros ->. Qed.

(** C7.  A publish attempt that is delivered, on a stored post, leaves the
    row [posted] with [published_at] set to the time of the attempt and
    appends exactly one event to the log: an event of that post, of type
    [published], without payload, with the next id and the second of the
    attempt.  And in every state the engine can reach from its
    construction, restarts included, a row has a [published_at] if and only
    if its status is [posted]. *)
Theorem published_iff_posted :
  (forall (twitterClient : TwitterClient) (now : Timestamp)
          (post : ScheduledPost) (st : PostScheduler) (d : Database)
          (r : Posts.row),
      db st = Some d ->
      select_by_id (id post) (posts d) = Some r ->
      delivered twitterClient post ->
      let st' := publishPost twitterClient now post st in
      (exists r',
          select_by_id (id post) (rows_of st') = Some r' /\
          Posts.status r' = posted /\
          Posts.published_at r' = Some now)
      /\ events_of st' =
         events_of st ++ [event_row d now (id post) "published" None]
      /\ events_of st' =
         events_of st ++
         [{| PostAnalytics.id := Z.of_nat (List.length (events_of st)) + 1;
             PostAnalytics.post_id := id post;
             PostAnalytics.event_type := "published";
             PostAnalytics.event_data := None;
             PostAnalytics.created_at := now / 1000 |}]
      /\ emitted st' = emitted st ++ [post_published post])
  /\ (forall st, reachable st ->
        forall r, In r (rows_of st) ->
                  (Posts.published_at r <> None <-> Posts.status r = posted)).
Proof.
  split.
  - intros twitterClient now post st d r Hdb Hrow Hok st'. unfold st'.
    rewrite (publishPost_delivered _ _ _ _ Hok).
    destruct (published_effect now post st d r Hdb Hrow)
      as ((r' & Hsel & Hs & Hp & _) & Hev & Hem & _).
    split; [now exists r'|]. split; [exact Hev|]. split; [|exact Hem].
    rewrite Hev. now rewrite (event_row_fields d st) by exact Hdb.
  - intros st Hreach r Hin.
    destruct (reachable_store_ok st Hreach) as [Hall _].
    now destruct (proj1 (Forall_forall _ _) Hall r Hin) as (_ & _ & H).
Qed.

Lemma published_iff_posted_witness :
  emitted (publishPost (fun _ => TweetOk) 5000 twitter_post
             (sample_scheduler [sample_row "a" pending 0 0])) =
  [post_published twitter_post]
  /\ (Posts.published_at (sample_row "a" pending 0 0) <> None <->
      Posts.status (sample_row "a" pending 0 0) = posted).
Proof.
  split.
  - apply (proj2 (proj2 (proj2
             (proj1 published_iff_posted (fun _ => TweetOk) 5000 twitter_post
                (sample_scheduler [sample_row "a" pending 0 0])
                {| posts := [sample_row "a" pending 0 0];
                   post_analytics := [] |}
                (sample_row "a" pending 0 0)
                eq_refl eq_refl (fun _ => eq_refl))))).
  - apply (proj2 published_iff_posted
             (run [OpInitDatabase; OpSchedulePost "a" 0 sample_request]
                constructed)
             (reachable_run
                [OpInitDatabase; OpSchedulePost "a" 0 sample_request])
             (sample_row "a" pending 0 0) (or_introl eq_refl)).
Defined.

(** ** The failure branch *)

Lemma drop_last_timer {A} (ts : list A) (t : A) :
  firstn (List.length ts) (ts ++ [t]) ++ skipn (S (List.length ts)) (ts ++ [t])
  = ts.
Proof.
  induction ts as [|x ts IH]; simpl.
  - reflexivity.
  - f_equal. exact IH.
Qed.

Lemma fire_last_timer (twitterClient : TwitterClient) (now : Timestamp)
    (o : option Database) (ts : list Timer) (t : Timer) (e : list Signal) :
  timer_due t <= now ->
  fire_timer twitterClient now (List.length ts)
    {| db := o; timers := ts ++ [t]; emitted := e |} =
  publishPost twitterClient now (timer_post t)
    {| db := o; timers := ts; emitted := e |}.
Proof.
  intros Hdue. unfold fire_timer. cbn [timers db emitted].
  rewrite nth_error_app2 by lia. rewrite Nat.sub_diag. cbn [nth_error].
  apply Z.leb_le in Hdue. rewrite Hdue.
  now rewrite drop_last_timer.
Qed.

Lemma publishPost_failed_attempt (twitterClient : TwitterClient)
    (now : Timestamp) (post : ScheduledPost) (st : PostScheduler)
    (error : JsError) :
  platform post = twitter ->
  twitterClient (content post) = TweetError error ->
  publishPost twitterClient now post st =
  match select_by_id (id post) (rows_of st) with
  | Some r =>
      if nullish (Posts.retry_count r) 0 <? 3
      then setTimeout now post (5 * 60 * 1000)
             (emit now
                (post_retrying post (nullish (Posts.retry_count r) 0 + 1)) st)
      else emit now (post_failed post error) st
  | None => emit now (post_failed post error) st
  end.
Proof.
  intros Hp Hf. unfold publishPost, publishToTwitter.
  rewrite Hp, Hf, getPostById_rows.
  now destruct (select_by_id (id post) (rows_of st)).
Qed.

Lemma publishPost_failure_effect (twitterClient : TwitterClient)
    (now : Timestamp) (post : ScheduledPost) (st : PostScheduler)
    (d : Database) (r : Posts.row) (n : Z) (error : JsError)
    (Hdb : db st = Some d)
    (Hplatform : platform post = twitter)
    (Hfail : twitterClient (content post) = TweetError error)
    (Hrow : select_by_id (id post) (posts d) = Some r)
    (Hcount : Posts.retry_count r = Some n) :
  let st' := publishPost twitterClient now post st in
  (n < 3 ->
   emitted st' = emitted st ++ [post_retrying post (n + 1)]
   /\ timers st' =
      timers st ++ [{| timer_due := now + 300000; timer_post := post |}]
   /\ rows_of st' = posts d
   /\ events_of st' =
      events_of st ++
      [event_row d now (id post) "retry" (Some (DataAttempt (n + 1)))]
   /\ (forall twitterClient' now', now + 300000 <= now' ->
         fire_timer twitterClient' now' (List.length (timers st)) st' =
         publishPost twitterClient' now' post
           {| db := db st'; timers := timers st; emitted := emitted st' |}))
  /\ (3 <= n ->
      emitted st' = emitted st ++ [post_failed post error]
      /\ timers st' = timers st
      /\ (exists r',
            select_by_id (id post) (rows_of st') = Some r' /\
            Posts.status r' = failed /\
            Posts.retry_count r' = Some (n + 1) /\
            Posts.error_message r' =
              Some (string_or (message error) "Erro desconhecido") /\
            Posts.published_at r' = Posts.published_at r)
      /\ events_of st' =
         events_of st ++
         [event_row d now (id post) "failed"
            (Some (DataError (message error)))])
  /\ (forall rc,
        db (publishPost twitterClient now (with_retry_count rc post) st) =
        db st').
Proof.
  intros st'.
  assert (Hst' : st' =
                 if n <? 3
                 then setTimeout now post (5 * 60 * 1000)
                        (emit now (post_retrying post (n + 1)) st)
                 else emit now (post_failed post error) st).
  { unfold st'. rewrite (publishPost_failed_attempt _ _ _ _ _ Hplatform Hfail).
    unfold rows_of. now rewrite Hdb, Hrow, Hcount. }
  split; [|split].
  - intros Hlt. apply Z.ltb_lt in Hlt. rewrite Hlt in Hst'.
    rewrite (emit_retrying _ _ _ _ _ Hdb) in Hst'.
    unfold setTimeout in Hst'; simpl in Hst'.
    rewrite Hst'. unfold rows_of, events_of; simpl. rewrite Hdb.
    repeat split.
    intros twitterClient' now' Hdue. apply fire_last_timer. simpl. lia.
  - intros Hge. apply Z.ltb_ge in Hge. rewrite Hge in Hst'.
    rewrite (emit_failed _ _ _ _ _ Hdb) in Hst'.
    rewrite Hst'. unfold rows_of, events_of; simpl. rewrite Hdb.
    repeat split.
    eexists. split; [apply sql_update_select, Hrow|].
    simpl. rewrite Hcount. repeat split.
  - intros rc.
    assert (Hrc : publishPost twitterClient now (with_retry_count rc post) st =
                  if n <? 3
                  then setTimeout now (with_retry_count rc post)
                         (5 * 60 * 1000)
                         (emit now
                            (post_retrying (with_retry_count rc post) (n + 1))
                            st)
                  else emit now (post_failed (with_retry_count rc post) error)
                         st).
    { rewrite (publishPost_failed_attempt _ _ _ _ error) by assumption.
      simpl. unfold rows_of. now rewrite Hdb, Hrow, Hcount. }
    rewrite Hrc, Hst'. destruct (n <? 3).
    + unfold setTimeout.
      now rewrite !(emit_retrying _ _ _ _ _ Hdb).
    + now rewrite !(emit_failed _ _ _ _ _ Hdb).
Qed.

Lemma string_or_message (m d : string) :
  m <> ""%string -> string_or (Some m) d = m.
Proof.
  intros Hm. unfold string_or.
  destruct (String.eqb_spec m ""); [contradiction | reflexivity].
Qed.

(** C2.  When the Twitter call of an attempt fails, what happens next is
    decided by the retry count of the stored row, whatever the post object
    in memory carries.  Below 3, the flow emits [post:retrying] with the
    stored count plus one, logs a [retry] event of that post with that
    attempt number, leaves the table alone and arms a timer of 300000 ms
    that runs [publishPost] on the same post.  From 3 on, it emits
    [post:failed]: the row becomes [failed], its retry count grows by
    exactly one, and its error message becomes the message of the error,
    or [Erro desconhecido] when the error has no message or an empty one;
    a [failed] event of that post with the message of the error is
    logged. *)
Theorem publishPost_failure_branch (twitterClient : TwitterClient)
    (now : Timestamp) (post : ScheduledPost) (st : PostScheduler)
    (d : Database) (r : Posts.row) (n : Z) (error : JsError)
    (Hdb : db st = Some d)
    (Hplatform : platform post = twitter)
    (Hfail : twitterClient (content post) = TweetError error)
    (Hrow : select_by_id (id post) (posts d) = Some r)
    (Hcount : Posts.retry_count r = Some n) :
  let st' := publishPost twitterClient now post st in
  (n < 3 ->
   emitted st' = emitted st ++ [post_retrying post (n + 1)]
   /\ timers st' =
      timers st ++ [{| timer_due := now + 300000; timer_post := post |}]
   /\ rows_of st' = posts d
   /\ events_of st' =
      events_of st ++
      [event_row d now (id post) "retry" (Some (DataAttempt (n + 1)))]
   /\ events_of st' =
      events_of st ++
      [{| PostAnalytics.id := Z.of_nat (List.length (events_of st)) + 1;
          PostAnalytics.post_id := id post;
          PostAnalytics.event_type := "retry";
          PostAnalytics.event_data := Some (DataAttempt (n + 1));
          PostAnalytics.created_at := now / 1000 |}]
   /\ (forall twitterClient' now', now + 300000 <= now' ->
         fire_timer twitterClient' now' (List.length (timers st)) st' =
         publishPost twitterClient' now' post
           {| db := db st'; timers := timers st; emitted := emitted st' |}))
  /\ (3 <= n ->
      emitted st' = emitted st ++ [post_failed post error]
      /\ timers st' = timers st
      /\ (exists r',
            select_by_id (id post) (rows_of st') = Some r' /\
            Posts.status r' = failed /\
            Posts.retry_count r' = Some (n + 1) /\
            Posts.error_message r' =
              Some (string_or (message error) "Erro desconhecido") /\
            (forall m, message error = Some m -> m <> ""%string ->
                       Posts.error_message r' = Some m) /\
            (message error = None \/ message error = Some ""%string ->
             Posts.error_message r' = Some "Erro desconhecido"%string) /\
            Posts.published_at r' = Posts.published_at r)
      /\ events_of st' =
         events_of st ++
         [event_row d now (id post) "failed"
            (Some (DataError (message error)))]
      /\ events_of st' =
         events_of st ++
         [{| PostAnalytics.id := Z.of_nat (List.length (events_of st)) + 1;
             PostAnalytics.post_id := id post;
             PostAnalytics.event_type := "failed";
             PostAnalytics.event_data := Some (DataError (message error));
             PostAnalytics.created_at := now / 1000 |}])
  /\ (forall rc,
        db (publishPost twitterClient now (with_retry_count rc post) st) =
        db st').
Proof.
  intros st'.
  destruct (publishPost_failure_effect twitterClient now post st d r n error
              Hdb Hplatform Hfail Hrow Hcount) as (Hretry & Hfailed & Hmem).
  fold st' in Hretry, Hfailed, Hmem.
  split; [|split; [|exact Hmem]].
  - intros Hlt. destruct (Hretry Hlt) as (He & Ht & Hr & Hev & Hfire).
    repeat (split; [assumption|]).
    split; [|exact Hfire].
    rewrite Hev. now rewrite (event_row_fields d st) by exact Hdb.
  - intros Hge.
    destruct (Hfailed Hge)
      as (He & Ht & (r' & Hsel & Hs & Hrc & Hmsg & Hp) & Hev).
    split; [exact He|]. split; [exact Ht|]. split; [|split; [exact Hev|]].
    + exists r'. repeat (split; [assumption|]).
      split; [|split; [|exact Hp]].
      * intros m Hm Hne. rewrite Hmsg, Hm. f_equal.
        now apply string_or_message.
      * intros [Hm|Hm]; rewrite Hmsg, Hm; reflexivity.
    + rewrite Hev. now rewrite (event_row_fields d st) by exact Hdb.
Qed.

Lemma publishPost_failure_branch_witness :
  emitted (publishPost (always_failing sample_error) 5000 twitter_post
             (sample_scheduler [sample_row "a" pending 0 3])) =
  [post_failed twitter_post sample_error]
  /\ emitted (publishPost (always_failing sample_error) 5000 twitter_post
                (sample_scheduler [sample_row "a" pending 0 2])) =
     [post_retrying twitter_post 3].
Proof.
  split.
  - apply (proj1 (proj2
             (publishPost_failure_branch (always_failing sample_error) 5000
                twitter_post (sample_scheduler [sample_row "a" pending 0 3])
                {| posts := [sample_row "a" pending 0 3];
                   post_analytics := [] |}
                (sample_row "a" pending 0 3) 3 sample_error
                eq_refl eq_refl eq_refl eq_refl eq_refl))); lia.
  - apply (proj1
             (publishPost_failure_branch (always_failing sample_error) 5000
                twitter_post (sample_scheduler [sample_row "a" pending 0 2])
                {| posts := [sample_row "a" pending 0 2];
                   post_analytics := [] |}
                (sample_row "a" pending 0 2) 2 sample_error
                eq_refl eq_refl eq_refl eq_refl eq_refl)); lia.
Defined.

(** ** An adapter that never succeeds *)

Lemma trail_log (postId : string) (o : Database) (now : Timestamp)
    (eventType : string) (eventData : option EventData)
    (ts : list Timer) (e : list Signal) (rows : list Posts.row) :
  trail postId
    {| db := Some {| posts := rows;
                     post_analytics :=
                       post_analytics o ++
                       [event_row o now postId eventType eventData] |};
       timers := ts; emitted := e |} =
  map (fun a => (PostAnalytics.event_type a, PostAnalytics.event_data a))
    (filter (fun a => String.eqb (PostAnalytics.post_id a) postId)
       (post_analytics o))
  ++ [(eventType, eventData)].
Proof.
  unfold trail, events_of. cbn [db post_analytics].
  rewrite filter_app, map_app. f_equal.
  cbn [filter event_row PostAnalytics.post_id].
  now rewrite String.eqb_refl.
Qed.

(** One more failed attempt on a stored post whose count is still 0. *)
Lemma failed_attempt_retries (twitterClient : TwitterClient)
    (error : JsError) (now : Timestamp)
    (post : ScheduledPost) (st : PostScheduler) (d : Database)
    (r : Posts.row) :
  db st = Some d ->
  platform post = twitter ->
  twitterClient (content post) = TweetError error ->
  select_by_id (id post) (posts d) = Some r ->
  Posts.retry_count r = Some 0 ->
  publishPost twitterClient now post st =
  {| db := Some
       {| posts := posts d;
          post_analytics :=
            post_analytics d ++
            [event_row d now (id post) "retry" (Some (DataAttempt 1))] |};
     timers := timers st ++ [retry_timer (now + 300000) post];
     emitted := emitted st ++ [post_retrying post 1] |}.
Proof.
  intros Hdb Hp Hf Hsel Hrc.
  rewrite (publishPost_failed_attempt _ _ _ _ error Hp Hf).
  unfold rows_of. rewrite Hdb, Hsel, Hrc. cbn [nullish].
  change (0 <? 3) with true. cbv iota.
  rewrite (emit_retrying _ _ _ _ _ Hdb). reflexivity.
Qed.

Lemma retry_chain_loops (error : JsError) (post : ScheduledPost)
    (r : Posts.row) (n : nat) :
  platform post = twitter ->
  Posts.retry_count r = Some 0 ->
  forall (now : Timestamp) (st : PostScheduler) (d : Database),
    db st = Some d ->
    select_by_id (id post) (posts d) = Some r ->
    timers st = [retry_timer (now + 300000) post] ->
    let st' := retry_chain error n now st in
    rows_of st' = posts d
    /\ timers st' = [retry_timer (now + 300000 * (Z.of_nat n + 1)) post]
    /\ emitted st' = emitted st ++ repeat (post_retrying post 1) n
    /\ trail (id post) st' = trail (id post) st ++ repeat retry_event n.
Proof.
  intros Hp Hrc. induction n as [|n IH]; intros now st d Hdb Hsel Ht.
  - cbn [retry_chain repeat]. rewrite !app_nil_r.
    unfold rows_of. rewrite Hdb, Ht.
    repeat split.
  - cbn [retry_chain].
    assert (Hfire :
      fire_timer (always_failing error) (now + 5 * 60 * 1000) 0 st =
      {| db := Some
           {| posts := posts d;
              post_analytics :=
                post_analytics d ++
                [event_row d (now + 5 * 60 * 1000) (id post) "retry"
                   (Some (DataAttempt 1))] |};
         timers := [retry_timer (now + 5 * 60 * 1000 + 300000) post];
         emitted := emitted st ++ [post_retrying post 1] |}).
    { unfold fire_timer. rewrite Ht. cbn [nth_error retry_timer timer_due].
      replace (now + 300000 <=? now + 5 * 60 * 1000) with true
        by (symmetry; apply Z.leb_le; lia).
      cbn [firstn skipn app timer_post].
      now rewrite (failed_attempt_retries _ error _ post _ d r). }
    rewrite Hfire.
    match goal with
    | |- context [retry_chain error n ?t ?s] =>
        destruct (IH t s _ eq_refl Hsel eq_refl) as (Hrows & Htim & Hem & Htr)
    end.
    cbn [posts emitted] in Hrows, Hem.
    cbv zeta. rewrite Hrows, Htim, Hem, Htr. repeat split.
    + do 2 f_equal. lia.
    + now rewrite <- app_assoc.
    + rewrite trail_log. unfold trail, events_of. rewrite Hdb.
      now rewrite <- app_assoc.
Qed.

Lemma retry_chain_reachable (error : JsError) (n : nat) (now : Timestamp)
    (st : PostScheduler) :
  reachable st -> reachable (retry_chain error n now st).
Proof.
  revert now st. induction n as [|n IH]; intros now st Hr; simpl.
  - exact Hr.
  - apply IH.
    apply (step_reachable st
             (OpTimer (always_failing error) (now + 5 * 60 * 1000) 0) Hr).
Qed.

Lemma existsb_select (postId : string) (rows : list Posts.row) :
  select_by_id postId rows = None ->
  existsb (fun r => String.eqb (Posts.id r) postId) rows = false.
Proof.
  unfold select_by_id. induction rows as [|x rows IH]; simpl.
  - reflexivity.
  - destruct (String.eqb (Posts.id x) postId); [discriminate | exact IH].
Qed.

Lemma schedulePost_accepts (postId : string) (now t : Timestamp)
    (postData : PostRequest) (st : PostScheduler) (d : Database) :
  db st = Some d ->
  nullish (req_scheduledFor postData) (ValidDate now) = ValidDate t ->
  select_by_id postId (posts d) = None ->
  schedulePost postId now postData st =
  (Resolved postId,
   {| db := Some
        {| posts := posts d ++ [inserted_row postId now t postData];
           post_analytics :=
             post_analytics d ++
             [event_row d now postId "scheduled"
                (Some (DataScheduledFor t))] |};
      timers := timers st;
      emitted :=
        emitted st ++ [post_scheduled (scheduled_post postId now t postData)]
   |}).
Proof.
  intros Hdb Hdate Hfresh. unfold schedulePost.
  rewrite Hdb, Hdate, (existsb_select _ _ Hfresh).
  reflexivity.
Qed.

Lemma first_tick_fails (postId : string) (now0 t now1 : Timestamp)
    (postData : PostRequest) (error : JsError) :
  req_platform postData = twitter ->
  nullish (req_scheduledFor postData) (ValidDate now0) = ValidDate t ->
  t <= now1 ->
  let row := inserted_row postId now0 t postData in
  let empty := {| posts := []; post_analytics := [] |} in
  run [OpInitDatabase; OpSchedulePost postId now0 postData;
       OpTick (always_failing error) now1] constructed =
  {| db := Some
       {| posts := [row];
          post_analytics :=
            [event_row empty now0 postId "scheduled"
               (Some (DataScheduledFor t));
             {| PostAnalytics.id := 2;
                PostAnalytics.post_id := postId;
                PostAnalytics.event_type := "retry";
                PostAnalytics.event_data := Some (DataAttempt 1);
                PostAnalytics.created_at := CURRENT_TIMESTAMP now1 |}] |};
     timers := [retry_timer (now1 + 300000) (post_of_due_row row)];
     emitted := [post_scheduled (scheduled_post postId now0 t postData);
                 post_retrying (post_of_due_row row) 1] |}.
Proof.
  intros Hp Hdate Hle row empty.
  unfold run. cbn [fold_left step].
  change (initDatabase constructed)
    with {| db := Some empty; timers := []; emitted := [] |}.
  rewrite (schedulePost_accepts postId now0 t postData
             {| db := Some empty; timers := []; emitted := [] |} empty
             eq_refl Hdate eq_refl).
  cbn [snd posts post_analytics timers emitted app].
  unfold scheduler_tick. cbn [db posts].
  assert (Hdue : select_due now1 [row] = [row]).
  { apply select_due_single.
    apply (is_due_le now1 row 0); [reflexivity | exact Hle | reflexivity|].
    lia. }
  unfold empty. cbn [posts post_analytics app].
  fold row. rewrite Hdue. cbn [fold_left].
  assert (Hsel : select_by_id (id (post_of_due_row row)) [row] = Some row).
  { cbn [select_by_id find post_of_due_row id row inserted_row Posts.id].
    now rewrite String.eqb_refl. }
  match goal with
  | |- publishPost _ _ _ ?s = _ =>
      match s with
      | {| db := Some ?d |} =>
          rewrite (failed_attempt_retries (always_failing error) error now1
                     (post_of_due_row row) s d row eq_refl Hp eq_refl Hsel
                     eq_refl)
      end
  end.
  reflexivity.
Qed.

(** C9.  In every state the engine reaches from its construction, every
    row still has the retry count 0 of its insert and none is [failed].
    There, a failed Twitter attempt on a stored post always takes the retry
    branch: it emits [post:retrying] with attempt number 1, leaves the table
    as it is and arms the next timer.  Hence, for a post scheduled on
    Twitter and an adapter that always fails, the tick and any number [n] of
    timer rounds after it leave one pending row with count 0, a trail of
    [scheduled] followed by [n + 1] events [retry] of attempt 1, and one
    more timer armed. *)
Theorem retry_count_stays_zero :
  (forall st, reachable st ->
     forall r, In r (rows_of st) ->
               Posts.retry_count r = Some 0 /\ Posts.status r <> failed)
  /\ (forall st, reachable st ->
        forall (twitterClient : TwitterClient) (error : JsError)
               (now : Timestamp) (post : ScheduledPost) (r : Posts.row),
          platform post = twitter ->
          twitterClient (content post) = TweetError error ->
          select_by_id (id post) (rows_of st) = Some r ->
          let st' := publishPost twitterClient now post st in
          rows_of st' = rows_of st
          /\ emitted st' = emitted st ++ [post_retrying post 1]
          /\ timers st' = timers st ++ [retry_timer (now + 300000) post])
  /\ (forall (postId : string) (now0 t now1 : Timestamp)
             (postData : PostRequest) (error : JsError) (n : nat),
        req_platform postData = twitter ->
        nullish (req_scheduledFor postData) (ValidDate now0) = ValidDate t ->
        t <= now1 ->
        let row := inserted_row postId now0 t postData in
        let st :=
          retry_chain error n now1
            (run [OpInitDatabase; OpSchedulePost postId now0 postData;
                  OpTick (always_failing error) now1] constructed) in
        reachable st
        /\ rows_of st = [row]
        /\ Posts.status row = pending
        /\ trail postId st =
           ("scheduled"%string, Some (DataScheduledFor t))
           :: repeat retry_event (S n)
        /\ emitted st =
           post_scheduled (scheduled_post postId now0 t postData)
           :: repeat (post_retrying (post_of_due_row row) 1) (S n)
        /\ timers st =
           [retry_timer (now1 + 300000 * (Z.of_nat n + 1))
              (post_of_due_row row)]).
Proof.
  split; [|split].
  - intros st Hreach r Hin.
    destruct (reachable_store_ok st Hreach) as [Hall _].
    destruct (proj1 (Forall_forall _ _) Hall r Hin) as (Hrc & Hs & _).
    now split.
  - intros st Hreach twitterClient error now post r Hp Hf Hsel st'.
    destruct (reachable_store_ok st Hreach) as [Hall _].
    pose proof (select_by_id_some _ _ _ Hsel) as [Hin _].
    destruct (proj1 (Forall_forall _ _) Hall r Hin) as (Hrc & _).
    unfold rows_of in Hsel |- *.
    destruct (db st) as [d|] eqn:Hdb; [|discriminate].
    unfold st'.
    rewrite (failed_attempt_retries _ error now post st d r) by assumption.
    cbn [db posts timers emitted]. auto.
  - intros postId now0 t now1 postData error n Hp Hdate Hle row st.
    split.
    { apply retry_chain_reachable, reachable_run. }
    unfold st. rewrite (first_tick_fails _ _ _ _ _ _ Hp Hdate Hle).
    fold row.
    match goal with
    | |- context [retry_chain error n now1 ?s] =>
        destruct (retry_chain_loops error (post_of_due_row row) row n Hp
                    eq_refl now1 s _ eq_refl) as (Hrows & Htim & Hem & Htr)
    end.
    + cbn [posts select_by_id find post_of_due_row id row inserted_row
           Posts.id].
      now rewrite String.eqb_refl.
    + reflexivity.
    + change (id (post_of_due_row row)) with postId in Htr.
      rewrite Hrows, Htim, Hem, Htr. cbn [posts emitted].
      repeat split.
      * unfold trail, events_of.
        cbn [db post_analytics filter event_row PostAnalytics.post_id].
        rewrite String.eqb_refl. reflexivity.
Qed.

Lemma retry_count_stays_zero_witness :
  trail "post_1"
    (retry_chain sample_error 4 60000
       (run [OpInitDatabase; OpSchedulePost "post_1" 2000 sample_request;
             OpTick (always_failing sample_error) 60000] constructed)) =
  ("scheduled"%string, Some (DataScheduledFor 1000)) :: repeat retry_event 5.
Proof.
  apply (proj1 (proj2 (proj2 (proj2
           (proj2 (proj2 retry_count_stays_zero) "post_1"%string 2000 1000
              60000 sample_request sample_error 4%nat eq_refl eq_refl
              ltac:(lia)))))).
Defined.

(** C1.  What the code does for a post whose Twitter call fails on every
    try: after the tick and two timer rounds, that is three failed attempts,
    the row is still [pending] with retry count 0 and no error message, the
    trail is [scheduled], [retry] 1, [retry] 1, [retry] 1 with no [failed]
    event, and a fourth attempt is armed. *)
Theorem three_failures_stay_pending :
  let st :=
    retry_chain sample_error 2 60000
      (run [OpInitDatabase; OpSchedulePost "post_1" 2000 sample_request;
            OpTick (always_failing sample_error) 60000] constructed) in
  option_map (fun p => (status p, retry_count p, errorMessage p))
    (getPostById "post_1" st) = Some (pending, Some 0, None)
  /\ trail "post_1" st =
     [("scheduled"%string, Some (DataScheduledFor 1000));
      ("retry"%string, Some (DataAttempt 1));
      ("retry"%string, Some (DataAttempt 1));
      ("retry"%string, Some (DataAttempt 1))]
  /\ map timer_due (timers st) = [960000].
Proof. vm_compute. repeat split. Qed.

(** ** schedulePost *)

Lemma schedulePost_accepts_empty_content :
  fst (schedulePost "post_1" 2000 empty_request (initDatabase constructed)) =
  Resolved "post_1"
  /\ rows_of
       (snd (schedulePost "post_1" 2000 empty_request
               (initDatabase constructed))) =
     [inserted_row "post_1" 2000 2000 empty_request]
  /\ ~ (req_content empty_request = ""%string ->
        exists e,
          fst (schedulePost "post_1" 2000 empty_request
                 (initDatabase constructed)) = Rejected e /\
          snd (schedulePost "post_1" 2000 empty_request
                 (initDatabase constructed)) = initDatabase constructed).
Proof.
  split; [reflexivity|]. split; [reflexivity|].
  intros H. destruct (H eq_refl) as (e & He & _). discriminate He.
Qed.

Lemma select_by_id_app (postId : string) (rows : list Posts.row)
    (r : Posts.row) :
  select_by_id postId rows = None ->
  Posts.id r = postId ->
  select_by_id postId (rows ++ [r]) = Some r.
Proof.
  unfold select_by_id. intros Hnone <-.
  induction rows as [|x rows IH]; simpl in *.
  - now rewrite String.eqb_refl.
  - destruct (String.eqb (Posts.id x) (Posts.id r)); [discriminate|].
    now apply IH.
Qed.

(** C5, as the code has it.  [schedulePost] looks neither at the content
    nor at the platform: on an open database, for a scheduled time that
    parses (or none) and an identifier not yet in the table, it inserts a
    [pending] row with retry count 0, whatever the content, logs and emits
    [scheduled] and resolves with the identifier.  When it rejects, the
    scheduler is unchanged and the reason is a closed database, an
    unparsable time or a taken identifier. *)
Theorem schedulePost_persists_pending (postId : string) (now : Timestamp)
    (postData : PostRequest) (st : PostScheduler) :
  let result := fst (schedulePost postId now postData st) in
  let st' := snd (schedulePost postId now postData st) in
  (forall d t,
      db st = Some d ->
      nullish (req_scheduledFor postData) (ValidDate now) = ValidDate t ->
      select_by_id postId (posts d) = None ->
      result = Resolved postId
      /\ rows_of st' = posts d ++ [inserted_row postId now t postData]
      /\ (exists r,
            select_by_id postId (rows_of st') = Some r /\
            Posts.status r = pending /\
            Posts.retry_count r = Some 0 /\
            Posts.content r = req_content postData /\
            Posts.platform r = req_platform postData /\
            Posts.scheduled_for r = t)
      /\ emitted st' =
         emitted st ++ [post_scheduled (scheduled_post postId now t postData)]
      /\ events_of st' =
         events_of st ++
         [event_row d now postId "scheduled" (Some (DataScheduledFor t))]
      /\ timers st' = timers st)
  /\ (forall e,
        result = Rejected e ->
        st' = st /\
        (db st = None
         \/ nullish (req_scheduledFor postData) (ValidDate now) = InvalidDate
         \/ exists r, select_by_id postId (rows_of st) = Some r)).
Proof.
  intros result st'. split.
  - intros d t Hdb Hdate Hfresh. unfold result, st'.
    rewrite (schedulePost_accepts _ _ _ _ _ _ Hdb Hdate Hfresh).
    unfold rows_of, events_of. cbn [fst snd db posts post_analytics timers
                                     emitted].
    rewrite Hdb. repeat split.
    exists (inserted_row postId now t postData).
    split; [now apply select_by_id_app | repeat split].
  - intros e. unfold result, st', schedulePost, rows_of.
    destruct (db st) as [d|]; [|auto].
    destruct (nullish (req_scheduledFor postData) (ValidDate now));
      [|auto].
    destruct (existsb _ (posts d)) eqn:Hex; cbn [fst snd]; [|discriminate].
    intros _. split; [reflexivity|]. right. right.
    apply existsb_exists in Hex. destruct Hex as (x & Hin & He).
    unfold select_by_id.
    destruct (find _ (posts d)) as [r|] eqn:Hf; [eauto|].
    apply (find_none _ _ Hf) in Hin. congruence.
Qed.

Lemma schedulePost_persists_pending_witness :
  fst (schedulePost "post_1" 2000 empty_request (initDatabase constructed)) =
  Resolved "post_1".
Proof.
  apply (proj1
           (proj1 (schedulePost_persists_pending "post_1" 2000 empty_request
                     (initDatabase constructed))
              {| posts := []; post_analytics := [] |} 2000
              eq_refl eq_refl eq_refl)).
Defined.

(** * Further properties of the code *)

(** ** Listing the posts *)

Lemma StronglySorted_map {A B} (f : A -> B) (R : B -> B -> Prop)
    (l : list A) :
  StronglySorted (fun a b => R (f a) (f b)) l -> StronglySorted R (map f l).
Proof.
  induction 1 as [|x l Hs IH Hall]; simpl; constructor.
  - exact IH.
  - apply Forall_map. exact Hall.
Qed.

Lemma getScheduledPosts_sorted (st : PostScheduler) :
  StronglySorted (fun a b => createdAt b <= createdAt a)
    (getScheduledPosts st).
Proof.
  unfold getScheduledPosts. destruct (db st) as [d|]; [|constructor].
  apply StronglySorted_map.
  pose proof (order_by_sorted (fun r => - Posts.created_at r) (posts d)) as H.
  eapply StronglySorted_ind with (P := StronglySorted _);
    [constructor | | exact H].
  intros x l _ IH Hall. constructor; [exact IH|].
  eapply Forall_impl; [|exact Hall].
  unfold key_le. simpl. intros a Ha. lia.
Qed.

Lemma getScheduledPosts_perm (st : PostScheduler) :
  Permutation (getScheduledPosts st) (map post_of_row (rows_of st)).
Proof.
  unfold getScheduledPosts, rows_of. destruct (db st) as [d|]; [|constructor].
  apply Permutation_map, order_by_perm.
Qed.

(** [getScheduledPosts] returns every stored post exactly once, newest
    creation first, and nothing while the database is closed. *)
Theorem getScheduledPosts_newest_first (st : PostScheduler) :
  StronglySorted (fun a b => createdAt b <= createdAt a)
    (getScheduledPosts st)
  /\ Permutation (getScheduledPosts st) (map post_of_row (rows_of st))
  /\ List.length (getScheduledPosts st) = List.length (rows_of st).
Proof.
  split; [apply getScheduledPosts_sorted|].
  pose proof (getScheduledPosts_perm st) as Hp.
  split; [exact Hp|].
  rewrite (Permutation_length Hp). apply length_map.
Qed.

Lemma js_sort_sorted {A} (compareFn : A -> A -> Z) (l : list A) :
  StronglySorted (fun a b => compareFn a b <= 0) l ->
  js_sort compareFn l = l.
Proof.
  induction 1 as [|x l Hs IH Hall]; simpl.
  - reflexivity.
  - rewrite IH. destruct l as [|y l']; simpl; [reflexivity|].
    inversion Hall as [|? ? Hxy _]; subst.
    apply Z.leb_le in Hxy. now rewrite Hxy.
Qed.

(** The sort of [GET /api/posts/scheduled] never moves a post: the route
    answers with the list of [getScheduledPosts] as it is. *)
Theorem route_scheduled_keeps_order (st : PostScheduler) :
  body (route_scheduled st) = getScheduledPosts st
  /\ status_code (route_scheduled st) = 200.
Proof.
  split; [|reflexivity]. unfold route_scheduled; cbn [body].
  apply js_sort_sorted.
  pose proof (getScheduledPosts_sorted st) as H.
  induction H as [|x l Hs IH Hall]; constructor.
  - exact IH.
  - eapply Forall_impl; [|exact Hall]. simpl. intros a Ha. lia.
Qed.

(** ** Statistics and events *)

Lemma count_status_total (rows : list Posts.row) :
  count_status posted rows + count_status pending rows
  + count_status failed rows = Z.of_nat (List.length rows).
Proof.
  unfold count_status.
  induction rows as [|r rows IH]; simpl; [reflexivity|].
  destruct (Posts.status r); simpl Status_eqb; cbv iota; simpl List.length;
    lia.
Qed.

(** The statistics on an empty and on a non-empty table.  On an empty
    [posts] table the total is 0 and the three counts are [NULL].  On any
    other table the three counts are numbers, none negative, that add up
    to the total, which is the number of rows. *)
Theorem getAnalytics_stats_add_up (postId : option string)
    (st : PostScheduler) (s : Stats.t)
    (Hstats : stats_of (getAnalytics postId st) = Some s) :
  (rows_of st = [] ->
   Stats.total_posts s = 0 /\
   Stats.published s = None /\ Stats.pending s = None /\
   Stats.failed s = None)
  /\ (rows_of st <> [] ->
      exists p q f,
        Stats.published s = Some p /\ Stats.pending s = Some q /\
        Stats.failed s = Some f /\
        0 <= p /\ 0 <= q /\ 0 <= f /\
        p + q + f = Stats.total_posts s /\
        Stats.total_posts s = Z.of_nat (List.length (rows_of st)) /\
        0 < Stats.total_posts s).
Proof.
  unfold getAnalytics, rows_of in *.
  destruct (db st) as [d|]; cbn [stats_of] in Hstats; [|discriminate].
  injection Hstats as <-. split.
  - intros ->. repeat split.
  - intros Hne.
    destruct (select_stats_counts (posts d)) as [Ht Hc].
    destruct (Hc Hne) as (Hp & Hq & Hf).
    exists (count_status posted (posts d)),
           (count_status pending (posts d)),
           (count_status failed (posts d)).
    rewrite Hp, Hq, Hf, Ht.
    pose proof (count_status_total (posts d)) as Hsum.
    assert (0 < Z.of_nat (List.length (posts d))).
    { destruct (posts d); [congruence | simpl List.length; lia]. }
    unfold count_status in *.
    repeat split; try lia.
Qed.

Lemma getAnalytics_stats_add_up_witness :
  Stats.total_posts (select_stats []) = 0 /\
  Stats.published (select_stats []) = None /\
  Stats.pending (select_stats []) = None /\
  Stats.failed (select_stats []) = None.
Proof.
  apply (proj1 (getAnalytics_stats_add_up None (sample_scheduler [])
                  (select_stats []) eq_refl) eq_refl).
Defined.

Lemma StronglySorted_firstn {A} (R : A -> A -> Prop) (n : nat) (l : list A) :
  StronglySorted R l -> StronglySorted R (firstn n l).
Proof.
  intros H. revert n. induction H as [|x l Hs IH Hall]; intros n.
  - rewrite firstn_nil. constructor.
  - destruct n; simpl; constructor.
    + apply IH.
    + apply Forall_forall. intros y Hy. apply firstn_incl in Hy.
      eapply Forall_forall; eauto.
Qed.

Lemma join_posts_In (d : Database) (j : Joined.row) :
  In j (join_posts d) ->
  In (Joined.pa j) (post_analytics d) /\
  exists p, In p (posts d) /\
            Posts.id p = PostAnalytics.post_id (Joined.pa j) /\
            Joined.content j = Posts.content p /\
            Joined.platform j = Posts.platform p /\
            Joined.status j = Posts.status p.
Proof.
  unfold join_posts. intros H. apply in_flat_map in H.
  destruct H as (a & Ha & Hj). apply in_map_iff in Hj.
  destruct Hj as (p & <- & Hp). apply filter_In in Hp.
  destruct Hp as [Hp He]. apply String.eqb_eq in He. simpl.
  split; [assumption|]. exists p. auto.
Qed.

Lemma getAnalytics_In (postId : option string) (st : PostScheduler)
    (j : Joined.row) :
  In j (analytics_of (getAnalytics postId st)) ->
  exists d, db st = Some d /\ In j (join_posts d).
Proof.
  unfold getAnalytics. destruct (db st) as [d|]; cbn [analytics_of];
    [|contradiction].
  intros Hj. apply firstn_incl, order_by_In in Hj.
  exists d. split; [reflexivity|].
  destruct (truthy postId); [apply filter_In in Hj; tauto | assumption].
Qed.

(** The events that [getAnalytics] returns are at most 100, newest first,
    and each one is a logged event joined with the stored post it belongs
    to, whose content, platform and current status it carries. *)
Theorem getAnalytics_events (postId : option string) (st : PostScheduler) :
  let events := analytics_of (getAnalytics postId st) in
  (List.length events <= 100)%nat
  /\ StronglySorted
       (fun a b => PostAnalytics.created_at (Joined.pa b) <=
                   PostAnalytics.created_at (Joined.pa a)) events
  /\ (forall j, In j events ->
        In (Joined.pa j) (events_of st) /\
        exists p, In p (rows_of st) /\
                  Posts.id p = PostAnalytics.post_id (Joined.pa j) /\
                  Joined.content j = Posts.content p /\
                  Joined.platform j = Posts.platform p /\
                  Joined.status j = Posts.status p).
Proof.
  intros events. split; [|split].
  - unfold events, getAnalytics.
    destruct (db st); cbn [analytics_of]; [|simpl; lia].
    apply firstn_le_length.
  - unfold events, getAnalytics.
    destruct (db st); cbn [analytics_of]; [|constructor].
    apply StronglySorted_firstn.
    match goal with
    | |- StronglySorted _ (order_by ?k ?l) =>
        pose proof (order_by_sorted k l) as H
    end.
    induction H as [|x l Hs IH Hall]; constructor; [exact IH|].
    eapply Forall_impl; [|exact Hall].
    unfold key_le. simpl. intros a Ha. lia.
  - intros j Hj. apply getAnalytics_In in Hj.
    destruct Hj as (d & Hdb & Hj). unfold events_of, rows_of.
    rewrite Hdb. now apply join_posts_In.
Qed.

(** ** Scheduling, looking up, deleting *)

Lemma select_by_id_snoc (i : string) (rows : list Posts.row)
    (r : Posts.row) :
  select_by_id i (rows ++ [r]) =
  match select_by_id i rows with
  | Some x => Some x
  | None => if String.eqb (Posts.id r) i then Some r else None
  end.
Proof.
  unfold select_by_id. induction rows as [|x rows IH]; simpl.
  - now destruct (String.eqb (Posts.id r) i).
  - destruct (String.eqb (Posts.id x) i); [reflexivity | exact IH].
Qed.

Lemma schedulePost_rows (postId : string) (now t : Timestamp)
    (postData : PostRequest) (st : PostScheduler) (d : Database) :
  db st = Some d ->
  nullish (req_scheduledFor postData) (ValidDate now) = ValidDate t ->
  select_by_id postId (posts d) = None ->
  rows_of (snd (schedulePost postId now postData st)) =
  posts d ++ [inserted_row postId now t postData].
Proof.
  intros Hdb Hdate Hfresh.
  now rewrite (schedulePost_accepts _ _ _ _ _ _ Hdb Hdate Hfresh).
Qed.

Lemma schedulePost_rejected (postId : string) (now : Timestamp)
    (postData : PostRequest) (st : PostScheduler) (e : ScheduleError) :
  fst (schedulePost postId now postData st) = Rejected e ->
  snd (schedulePost postId now postData st) = st.
Proof.
  unfold schedulePost. destruct (db st) as [d|]; [|reflexivity].
  destruct (nullish (req_scheduledFor postData) (ValidDate now));
    [|reflexivity].
  destruct (existsb _ (posts d)); [reflexivity | discriminate].
Qed.

(** A post that [schedulePost] accepted can be looked up at once, stored
    with retry count 0 although the object handed to the listeners has none;
    no other post is disturbed, and the listing grows by this one post. *)
Theorem schedulePost_then_lookup (postId : string) (now t : Timestamp)
    (postData : PostRequest) (st : PostScheduler) (d : Database)
    (Hdb : db st = Some d)
    (Hdate : nullish (req_scheduledFor postData) (ValidDate now)
             = ValidDate t)
    (Hfresh : select_by_id postId (posts d) = None) :
  let st' := snd (schedulePost postId now postData st) in
  getPostById postId st' =
    Some (post_of_row (inserted_row postId now t postData))
  /\ retry_count (post_of_row (inserted_row postId now t postData)) = Some 0
  /\ retry_count (scheduled_post postId now t postData) = None
  /\ (forall i, i <> postId -> getPostById i st' = getPostById i st)
  /\ Permutation (getScheduledPosts st')
       (post_of_row (inserted_row postId now t postData)
        :: getScheduledPosts st).
Proof.
  intros st'.
  pose proof (schedulePost_rows _ _ _ _ _ _ Hdb Hdate Hfresh) as Hrows.
  fold st' in Hrows.
  assert (Hold : rows_of st = posts d) by (unfold rows_of; now rewrite Hdb).
  split; [|split; [reflexivity|split; [reflexivity|split]]].
  - rewrite getPostById_rows, Hrows, select_by_id_snoc, Hfresh.
    cbn [inserted_row Posts.id]. now rewrite String.eqb_refl.
  - intros i Hne. rewrite !getPostById_rows, Hrows, Hold, select_by_id_snoc.
    destruct (select_by_id i (posts d)); [reflexivity|].
    cbn [inserted_row Posts.id].
    apply not_eq_sym, String.eqb_neq in Hne. now rewrite Hne.
  - pose proof (getScheduledPosts_perm st') as H1.
    pose proof (getScheduledPosts_perm st) as H2.
    eapply perm_trans; [exact H1|].
    rewrite Hrows, map_app. simpl.
    eapply perm_trans; [apply Permutation_sym, Permutation_cons_append|].
    apply perm_skip. rewrite <- Hold. now apply Permutation_sym.
Qed.

Lemma schedulePost_then_lookup_witness :
  getPostById "post_1"
    (snd (schedulePost "post_1" 2000 sample_request
            (initDatabase constructed))) =
  Some (post_of_row (inserted_row "post_1" 2000 1000 sample_request)).
Proof.
  apply (proj1 (schedulePost_then_lookup "post_1" 2000 1000 sample_request
                  (initDatabase constructed)
                  {| posts := []; post_analytics := [] |}
                  eq_refl eq_refl eq_refl)).
Defined.

(** A post that [schedulePost] accepted is picked up by a tick of the
    server clock exactly when its scheduled time is at or before the time
    of the tick, or lies in the year 10000 or later, where the stored text
    starts with a plus sign and is below the text of every clock reading.
    Whether the older rows are due does not change. *)
Theorem scheduled_post_due (postId : string) (now t now' : Timestamp)
    (postData : PostRequest) (st : PostScheduler) (d : Database)
    (Hdb : db st = Some d)
    (Hdate : nullish (req_scheduledFor postData) (ValidDate now)
             = ValidDate t)
    (Hfresh : select_by_id postId (posts d) = None)
    (Hclock : real_clock now') :
  let st' := snd (schedulePost postId now postData st) in
  (In (inserted_row postId now t postData) (select_due now' (rows_of st'))
   <-> t <= now' \/ year_10000 <= t)
  /\ (t <= now' ->
      In (inserted_row postId now t postData) (select_due now' (rows_of st')))
  /\ (forall r, In r (posts d) ->
        (In r (select_due now' (rows_of st')) <->
         In r (select_due now' (posts d)))).
Proof.
  intros st'. unfold st'.
  rewrite (schedulePost_rows _ _ _ _ _ _ Hdb Hdate Hfresh).
  assert (Hiff : In (inserted_row postId now t postData)
                   (select_due now'
                      (posts d ++ [inserted_row postId now t postData]))
                 <-> t <= now' \/ year_10000 <= t).
  { rewrite select_due_In, is_due_iff.
    cbn [inserted_row Posts.status Posts.scheduled_for Posts.retry_count].
    rewrite (text_leb_clock_iff _ _ Hclock). split.
    - tauto.
    - intros Hle. split; [apply in_or_app; right; now left|].
      repeat split; try assumption. exists 0. split; [reflexivity | lia]. }
  split; [exact Hiff|]. split.
  - intros Hle. apply Hiff. now left.
  - intros r Hr. rewrite !select_due_In. split.
    + tauto.
    + intros [_ H]. split; [apply in_or_app; now left | assumption].
Qed.

Lemma scheduled_post_due_witness :
  In (inserted_row "post_1" 2000 1000 sample_request)
     (select_due 1000
        (rows_of (snd (schedulePost "post_1" 2000 sample_request
                         (initDatabase constructed))))).
Proof.
  apply (proj1 (proj2 (scheduled_post_due "post_1" 2000 1000 1000
                         sample_request (initDatabase constructed)
                         {| posts := []; post_analytics := [] |}
                         eq_refl eq_refl eq_refl
                         ltac:(unfold real_clock, year_0, year_10000; lia)))).
  lia.
Defined.

Lemma deleteScheduledPost_events (postId : string) (st : PostScheduler) :
  events_of (snd (deleteScheduledPost postId st)) = events_of st
  /\ timers (snd (deleteScheduledPost postId st)) = timers st
  /\ emitted (snd (deleteScheduledPost postId st)) = emitted st.
Proof.
  unfold deleteScheduledPost, events_of.
  destruct (db st) as [d|] eqn:Hdb; simpl; [|rewrite Hdb]; auto.
Qed.

Lemma getAnalytics_stored (postId : option string) (st : PostScheduler)
    (j : Joined.row) :
  In j (analytics_of (getAnalytics postId st)) ->
  exists p, In p (rows_of st) /\
            Posts.id p = PostAnalytics.post_id (Joined.pa j).
Proof.
  intros Hj. apply getAnalytics_In in Hj. destruct Hj as (d & Hdb & Hj).
  apply join_posts_In in Hj. destruct Hj as (_ & p & Hp & He & _).
  exists p. unfold rows_of. rewrite Hdb. auto.
Qed.

(** Scheduling a post and deleting it again: the deletion succeeds and the
    [posts] table is as it was before, but the [scheduled] event stays in
    the log, and no call of [getAnalytics] returns an event of that post any
    more. *)
Theorem schedule_then_delete (postId : string) (now t : Timestamp)
    (postData : PostRequest) (st : PostScheduler) (d : Database)
    (Hdb : db st = Some d)
    (Hdate : nullish (req_scheduledFor postData) (ValidDate now)
             = ValidDate t)
    (Hfresh : select_by_id postId (posts d) = None) :
  let st1 := snd (schedulePost postId now postData st) in
  let st2 := snd (deleteScheduledPost postId st1) in
  fst (deleteScheduledPost postId st1) = true
  /\ rows_of st2 = posts d
  /\ getPostById postId st2 = None
  /\ events_of st2 =
     events_of st ++
     [event_row d now postId "scheduled" (Some (DataScheduledFor t))]
  /\ (forall q j, In j (analytics_of (getAnalytics q st2)) ->
                  PostAnalytics.post_id (Joined.pa j) <> postId).
Proof.
  intros st1 st2.
  pose proof (schedulePost_rows _ _ _ _ _ _ Hdb Hdate Hfresh) as Hrows1.
  fold st1 in Hrows1.
  assert (Hrows2 : rows_of st2 = posts d).
  { unfold st2. rewrite deleteScheduledPost_rows, Hrows1, filter_app.
    cbn [filter]. unfold delete_hit at 2.
    cbn [inserted_row Posts.id Posts.status Status_eqb].
    rewrite String.eqb_refl. cbn [andb negb]. rewrite app_nil_r.
    apply filter_all. intros r Hr. apply negb_true_iff.
    destruct (delete_hit postId r) eqn:Hh; [|reflexivity].
    apply delete_hit_iff in Hh. destruct Hh as [He _].
    now apply (select_by_id_none _ _ Hfresh) in Hr. }
  split; [|split; [exact Hrows2|split; [|split]]].
  - apply deleteScheduledPost_changes.
    exists (inserted_row postId now t postData). split.
    + rewrite Hrows1. apply in_or_app. right. now left.
    + now apply delete_hit_iff.
  - now rewrite getPostById_rows, Hrows2, Hfresh.
  - unfold st2. destruct (deleteScheduledPost_events postId st1) as [-> _].
    unfold st1. rewrite (schedulePost_accepts _ _ _ _ _ _ Hdb Hdate Hfresh).
    unfold events_of. cbn [snd db post_analytics]. now rewrite Hdb.
  - intros q j Hj He. apply getAnalytics_stored in Hj.
    destruct Hj as (p & Hp & Hid). rewrite Hrows2 in Hp.
    apply (select_by_id_none _ _ Hfresh) in Hp. congruence.
Qed.

Lemma schedule_then_delete_witness :
  fst (deleteScheduledPost "post_1"
         (snd (schedulePost "post_1" 2000 sample_request
                 (initDatabase constructed)))) = true.
Proof.
  apply (proj1 (schedule_then_delete "post_1" 2000 1000 sample_request
                  (initDatabase constructed)
                  {| posts := []; post_analytics := [] |}
                  eq_refl eq_refl eq_refl)).
Defined.

(** ** Maintenance, twice *)

Lemma filter_filter_weaker {A} (f g : A -> bool) (l : list A) :
  (forall x, g x = true -> f x = true) ->
  filter g (filter f l) = filter g l.
Proof.
  intros H. induction l as [|x l IH]; simpl; [reflexivity|].
  destruct (f x) eqn:Hf; simpl.
  - now rewrite IH.
  - destruct (g x) eqn:Hg; [|exact IH].
    apply H in Hg. congruence.
Qed.

(** Running [cleanupOldPosts] a second time, with a cut-off that is not
    earlier than that of the first run, gives what the second run alone
    gives.  This is so for a second run at the same time, which therefore
    changes nothing, and for a later run on a server whose offset from UTC
    never changes. *)
Theorem cleanupOldPosts_twice (tz : TimeZone) (now1 now2 : Timestamp)
    (st : PostScheduler)
    (Hcut : thirtyDaysAgo tz now1 <= thirtyDaysAgo tz now2) :
  cleanupOldPosts tz now2 (cleanupOldPosts tz now1 st)
  = cleanupOldPosts tz now2 st
  /\ cleanupOldPosts tz now1 (cleanupOldPosts tz now1 st)
     = cleanupOldPosts tz now1 st.
Proof.
  assert (H : forall a b, thirtyDaysAgo tz a <= thirtyDaysAgo tz b ->
                cleanupOldPosts tz b (cleanupOldPosts tz a st)
                = cleanupOldPosts tz b st).
  { intros a b Hab. unfold cleanupOldPosts.
    destruct (db st) as [d|] eqn:Hdb; cbn [set_db db]; [|now rewrite Hdb].
    unfold set_db, set_posts; cbn [posts post_analytics timers emitted].
    rewrite filter_filter_weaker; [reflexivity|].
    intros r Hr. apply negb_true_iff in Hr. apply negb_true_iff.
    destruct (is_old tz a r) eqn:Ho; [|reflexivity].
    apply is_old_iff in Ho. destruct Ho as [Hs Hc].
    assert (Ht : is_old tz b r = true)
      by (apply is_old_iff; split; [auto|lia]).
    congruence. }
  split; [now apply H | apply H; lia].
Qed.

(** On a server whose offset from UTC is always the same, a later run has
    a later cut-off. *)
Lemma thirtyDaysAgo_fixed_offset (tz : TimeZone) (offset : Z)
    (now1 now2 : Timestamp) :
  (forall t, offset_of_utc tz t = offset) ->
  (forall l, offset_of_local tz l = offset) ->
  now1 <= now2 -> thirtyDaysAgo tz now1 <= thirtyDaysAgo tz now2.
Proof.
  intros Hu Hl Hle. rewrite !thirtyDaysAgo_shift, !Hu, !Hl. lia.
Qed.

Lemma cleanupOldPosts_twice_witness :
  cleanupOldPosts utc_zone 6000000000
    (cleanupOldPosts utc_zone 5000000000
       (sample_scheduler [sample_row "a" posted 0 0])) =
  cleanupOldPosts utc_zone 6000000000
    (sample_scheduler [sample_row "a" posted 0 0]).
Proof.
  refine (proj1 (cleanupOldPosts_twice utc_zone 5000000000 6000000000
                   (sample_scheduler [sample_row "a" posted 0 0]) _)).
  unfold thirtyDaysAgo, utc_zone; simpl. lia.
Defined.

(** ** The routes *)

Lemma deleteScheduledPost_unchanged (postId : string) (st : PostScheduler) :
  fst (deleteScheduledPost postId st) = false ->
  snd (deleteScheduledPost postId st) = st.
Proof.
  intros Hd.
  assert (Hno : forall r, In r (rows_of st) -> delete_hit postId r = false).
  { intros r Hin. destruct (delete_hit postId r) eqn:Hr; [|reflexivity].
    assert (Ht : fst (deleteScheduledPost postId st) = true)
      by (apply deleteScheduledPost_changes; eauto).
    congruence. }
  unfold deleteScheduledPost, rows_of in *.
  destruct (db st) as [d|] eqn:Hdb; simpl; [|reflexivity].
  rewrite filter_all.
  - now apply scheduler_eta.
  - intros r Hin. now rewrite Hno.
Qed.

(** [GET /api/posts/:id] and [DELETE /api/posts/:id] test a promise, not
    its result: they answer 200 with [success] for every id.  For an id
    that is not stored the lookup still answers 200; when nothing is
    deleted, because the post is unknown, posted or failed, the deletion
    still answers 200 and the scheduler is as before. *)
Theorem routes_never_answer_404 (postId : string) (st : PostScheduler) :
  status_code (route_get_post postId st) = 200
  /\ success (route_get_post postId st) = true
  /\ status_code (reply (route_delete_post postId st)) = 200
  /\ success (reply (route_delete_post postId st)) = true
  /\ (getPostById postId st = None ->
      body (route_get_post postId st) = Some (promise None))
  /\ (forall r, select_by_id postId (rows_of st) = Some r ->
                Posts.status r <> pending ->
                primary_key (rows_of st) ->
                scheduler (route_delete_post postId st) = st)
  /\ (select_by_id postId (rows_of st) = None ->
      scheduler (route_delete_post postId st) = st).
Proof.
  repeat split.
  - intros H. unfold route_get_post. cbn [js_not body]. now rewrite H.
  - intros r Hsel Hs Hpk. unfold route_delete_post; cbn [scheduler].
    apply deleteScheduledPost_unchanged. apply not_true_is_false.
    intros Ht. apply deleteScheduledPost_changes in Ht.
    destruct Ht as (x & Hin & Hx). apply delete_hit_iff in Hx.
    destruct Hx as [<- Hp].
    rewrite (select_by_id_unique _ _ Hpk Hin) in Hsel. congruence.
  - intros Hsel. unfold route_delete_post; cbn [scheduler].
    apply deleteScheduledPost_unchanged. apply not_true_is_false.
    intros Ht. apply deleteScheduledPost_changes in Ht.
    destruct Ht as (x & Hin & Hx). apply delete_hit_iff in Hx.
    destruct Hx as [He _].
    now apply (select_by_id_none _ _ Hsel) in Hin.
Qed.

Lemma routes_never_answer_404_witness :
  scheduler (route_delete_post "b"
               (sample_scheduler [sample_row "a" pending 0 0;
                                  sample_row "b" posted 0 0])) =
  sample_scheduler [sample_row "a" pending 0 0; sample_row "b" posted 0 0].
Proof.
  apply (proj1 (proj2 (proj2 (proj2 (proj2 (proj2
           (routes_never_answer_404 "b"
              (sample_scheduler [sample_row "a" pending 0 0;
                                 sample_row "b" posted 0 0])))))))
           (sample_row "b" posted 0 0) eq_refl).
  - discriminate.
  - exact sample_primary_key.
Defined.

(** [POST /api/posts/schedule] answers 400 and does nothing when the body
    carries no [scheduledFor].  Otherwise it answers 200 with [success]
    whatever becomes of the call: when [schedulePost] rejects (a text that
    is no date, a database not yet open, an identifier already taken)
    nothing is stored and the rejection, which nobody awaits, stops the
    process with exit code 1. *)
Theorem route_schedule_outcomes (postId : string) (now : Timestamp)
    (postData : PostRequest) (st : PostScheduler) :
  let served := route_schedule postId now postData st in
  (req_scheduledFor postData = None ->
   status_code (reply served) = 400 /\ success (reply served) = false /\
   scheduler served = st /\ exit_code served = None)
  /\ (req_scheduledFor postData <> None ->
      status_code (reply served) = 200 /\ success (reply served) = true)
  /\ (req_scheduledFor postData = Some InvalidDate ->
      scheduler served = st /\ exit_code served = Some 1)
  /\ (forall e, req_scheduledFor postData <> None ->
                fst (schedulePost postId now postData st) = Rejected e ->
                scheduler served = st /\ exit_code served = Some 1)
  /\ (forall d t, db st = Some d ->
                  req_scheduledFor postData = Some (ValidDate t) ->
                  select_by_id postId (posts d) = None ->
                  exit_code served = None /\
                  rows_of (scheduler served) =
                  posts d ++ [inserted_row postId now t postData]).
Proof.
  intros served. unfold served, route_schedule.
  assert (Hrej : forall e,
             fst (schedulePost postId now postData st) = Rejected e ->
             snd (schedulePost postId now postData st) = st /\
             unhandledRejection (fst (schedulePost postId now postData st))
             = Some 1).
  { intros e He. split; [now apply (schedulePost_rejected _ _ _ _ e)|].
    now rewrite He. }
  destruct (req_scheduledFor postData) as [ds|] eqn:Hs;
    cbn [reply scheduler exit_code status_code success].
  - split; [discriminate|]. split; [auto|]. split; [|split].
    + intros [= ->].
      assert (exists e, fst (schedulePost postId now postData st)
                        = Rejected e) as [e He].
      { unfold schedulePost. rewrite Hs. cbn [nullish].
        destruct (db st); cbn [fst]; eauto. }
      exact (Hrej e He).
    + intros e _ He. exact (Hrej e He).
    + intros d t Hdb [= ->] Hfresh.
      assert (Hdate : nullish (req_scheduledFor postData) (ValidDate now)
                      = ValidDate t) by now rewrite Hs.
      rewrite (schedulePost_accepts _ _ _ _ _ _ Hdb Hdate Hfresh).
      cbn [fst snd unhandledRejection]. auto.
  - split; [auto|]. split; [congruence|]. split; [discriminate|].
    split; [congruence | discriminate].
Qed.

Lemma route_schedule_outcomes_witness :
  scheduler (route_schedule "post_1" 2000 invalid_request
               (initDatabase constructed)) = initDatabase constructed
  /\ exit_code (route_schedule "post_1" 2000 invalid_request
                  (initDatabase constructed)) = Some 1.
Proof.
  apply (proj1 (proj2 (proj2
           (route_schedule_outcomes "post_1" 2000 invalid_request
              (initDatabase constructed)))) eq_refl).
Defined.

(** [POST /api/posts/publish] overwrites the [scheduledFor] of the body
    with the time of the request: on an open database and with a fresh
    identifier the post is stored whatever date text the body carried,
    the process keeps running, and the post is due at every tick from that
    time on.  The route answers 200 in every case. *)
Theorem route_publish_due_at_once (postId : string) (now : Timestamp)
    (postData : PostRequest) (st : PostScheduler) (d : Database)
    (Hdb : db st = Some d)
    (Hfresh : select_by_id postId (posts d) = None) :
  let served := route_publish postId now postData st in
  let row := inserted_row postId now now (with_scheduledFor now postData) in
  status_code (reply served) = 200
  /\ exit_code served = None
  /\ rows_of (scheduler served) = posts d ++ [row]
  /\ Posts.content row = req_content postData
  /\ (forall now', now <= now' ->
        In row (select_due now' (rows_of (scheduler served)))).
Proof.
  intros served row. unfold served, route_publish.
  cbn [reply scheduler exit_code status_code].
  rewrite (schedulePost_accepts postId now now
             (with_scheduledFor now postData) st d Hdb eq_refl Hfresh).
  cbn [fst snd unhandledRejection]. unfold rows_of; cbn [db posts].
  repeat split.
  intros now' Hle. apply select_due_In. split.
  - apply in_or_app. right. now left.
  - apply (is_due_le now' _ 0); [reflexivity | exact Hle | reflexivity|].
    lia.
Qed.

Lemma route_publish_due_at_once_witness :
  exit_code (route_publish "post_1" 2000 invalid_request
               (initDatabase constructed)) = None.
Proof.
  apply (proj1 (proj2
           (route_publish_due_at_once "post_1" 2000 invalid_request
              (initDatabase constructed)
              {| posts := []; post_analytics := [] |} eq_refl eq_refl))).
Defined.

(** ** The log and the signals *)

Lemma publishPost_cases (twitterClient : TwitterClient) (now : Timestamp)
    (post : ScheduledPost) (st : PostScheduler) :
  publishPost twitterClient now post st = emit now (post_published post) st
  \/ (exists error,
        publishPost twitterClient now post st =
        emit now (post_failed post error) st)
  \/ (exists attempt,
        platform post = twitter /\
        publishPost twitterClient now post st =
        setTimeout now post (5 * 60 * 1000)
          (emit now (post_retrying post attempt) st)).
Proof.
  unfold publishPost.
  destruct (platform post) eqn:Hp; cbv iota; auto.
  destruct (publishToTwitter twitterClient post) as [|error]; auto.
  right.
  destruct (getPostById (id post) st) as [currentPost|]; [|eauto].
  destruct (nullish (retry_count currentPost) 0 <? 3); eauto.
Qed.

Lemma emit_log (now : Timestamp) (sig : Signal) (st : PostScheduler)
    (d : Database) :
  db st = Some d ->
  exists rows,
    emit now sig st =
    {| db := Some
         {| posts := rows;
            post_analytics :=
              post_analytics d ++
              [event_row d now (fst (fst (signal_event sig)))
                 (snd (fst (signal_event sig))) (snd (signal_event sig))] |};
       timers := timers st;
       emitted := emitted st ++ [sig] |}.
Proof.
  intros Hdb. destruct sig; cbn [signal_event fst snd]; eexists.
  - apply emit_scheduled, Hdb.
  - apply emit_published, Hdb.
  - apply emit_failed, Hdb.
  - apply emit_retrying, Hdb.
Qed.

Lemma grows_refl (st : PostScheduler) : grows st st.
Proof. split; exists []; now rewrite app_nil_r. Qed.

Lemma grows_trans (a b c : PostScheduler) :
  grows a b -> grows b c -> grows a c.
Proof.
  intros [[l1 H1] [m1 H2]] [[l2 H3] [m2 H4]]. split.
  - exists (l1 ++ l2). now rewrite H3, H1, app_assoc.
  - exists (m1 ++ m2). now rewrite H4, H2, app_assoc.
Qed.

Lemma grows_same (st st' : PostScheduler) :
  events_of st' = events_of st -> emitted st' = emitted st -> grows st st'.
Proof. intros H1 H2. split; exists []; now rewrite app_nil_r. Qed.

Lemma emit_grows (now : Timestamp) (sig : Signal) (st : PostScheduler) :
  grows st (emit now sig st).
Proof.
  destruct (db st) as [d|] eqn:Hdb.
  - destruct (emit_log now sig st d Hdb) as [rows ->].
    unfold grows, events_of; cbn [db post_analytics emitted]. rewrite Hdb.
    split; eexists; reflexivity.
  - rewrite (emit_no_db _ _ _ Hdb).
    unfold grows, events_of; cbn [db emitted]. rewrite Hdb.
    split; [exists []; reflexivity | eexists; reflexivity].
Qed.

Lemma publishPost_grows (twitterClient : TwitterClient) (now : Timestamp)
    (post : ScheduledPost) (st : PostScheduler) :
  grows st (publishPost twitterClient now post st).
Proof.
  destruct (publishPost_cases twitterClient now post st)
    as [-> | [(e & ->) | (k & _ & ->)]]; [apply emit_grows ..|].
  eapply grows_trans; [apply (emit_grows now (post_retrying post k))|].
  now apply grows_same.
Qed.

Lemma fold_publish_grows (twitterClient : TwitterClient) (now : Timestamp)
    (due : list Posts.row) (st : PostScheduler) :
  grows st
    (fold_left
       (fun s dbPost =>
          publishPost twitterClient now (post_of_due_row dbPost) s) due st).
Proof.
  revert st. induction due as [|x due IH]; intros st; simpl.
  - apply grows_refl.
  - eapply grows_trans; [apply publishPost_grows | apply IH].
Qed.

Lemma schedulePost_grows (postId : string) (now : Timestamp)
    (postData : PostRequest) (st : PostScheduler) :
  grows st (snd (schedulePost postId now postData st)).
Proof.
  unfold schedulePost. destruct (db st) as [d|] eqn:Hdb;
    [|apply grows_refl].
  destruct (nullish (req_scheduledFor postData) (ValidDate now));
    [|apply grows_refl].
  destruct (existsb _ (posts d)); [apply grows_refl|].
  cbn [snd]. eapply grows_trans; [|apply emit_grows].
  apply grows_same; [|reflexivity].
  unfold events_of; cbn. now rewrite Hdb.
Qed.

Lemma step_grows (st : PostScheduler) (op : Op) : grows st (step st op).
Proof.
  destruct op; cbn [step].
  - unfold initDatabase, open_database.
    destruct (db st) eqn:Hdb; [apply grows_refl|].
    apply grows_same; [|reflexivity].
    unfold events_of; cbn. now rewrite Hdb.
  - apply schedulePost_grows.
  - unfold scheduler_tick. destruct (db st); [|apply grows_refl].
    apply fold_publish_grows.
  - unfold fire_timer.
    destruct (nth_error (timers st) k) as [t|]; [|apply grows_refl].
    destruct (timer_due t <=? now); [|apply grows_refl].
    eapply grows_trans; [|apply publishPost_grows].
    now apply grows_same.
  - destruct (cleanupOldPosts_frame tz now st) as (H1 & _ & H2).
    now apply grows_same.
  - apply schedulePost_grows.
  - destruct (deleteScheduledPost_events postId st) as (H1 & _ & H2).
    now apply grows_same.
  - apply grows_refl.
Qed.

(** No operation of the engine removes or rewrites an event of the log or
    takes back a signal: after any sequence of operations, from any state,
    the old log is a prefix of the new one, and so are the old signals. *)
Theorem log_is_append_only (ops : list Op) (st : PostScheduler) :
  (exists l, events_of (run ops st) = events_of st ++ l)
  /\ (exists l, emitted (run ops st) = emitted st ++ l).
Proof.
  change (grows st (run ops st)). unfold run. revert st.
  induction ops as [|op ops IH]; intros st; simpl.
  - apply grows_refl.
  - eapply grows_trans; [apply step_grows | apply IH].
Qed.

Lemma log_ids_snoc (d : Database) (now : Timestamp) (i ty : string)
    (data : option EventData) :
  map PostAnalytics.id (post_analytics d) =
  map Z.of_nat (seq 1 (List.length (post_analytics d))) ->
  map PostAnalytics.id (post_analytics d ++ [event_row d now i ty data]) =
  map Z.of_nat
    (seq 1 (List.length (post_analytics d ++ [event_row d now i ty data]))).
Proof.
  intros H. rewrite length_app, Nat.add_comm. cbn [List.length Nat.add].
  rewrite seq_S, !map_app, H. cbn [map event_row PostAnalytics.id].
  do 2 f_equal. lia.
Qed.

Lemma emit_engine_ok (n : nat) (now : Timestamp) (sig : Signal)
    (st : PostScheduler) :
  opened st -> engine_ok_from n st ->
  opened (emit now sig st) /\ engine_ok_from n (emit now sig st)
  /\ timers (emit now sig st) = timers st.
Proof.
  intros [d Hdb] Hok. destruct (emit_log now sig st d Hdb) as [rows ->].
  unfold engine_ok_from in *. cbn [db timers emitted post_analytics].
  rewrite Hdb in Hok. destruct Hok as [(Hn & Hlog & Hids) Ht].
  split; [eexists; reflexivity|]. split; [|reflexivity].
  split; [|exact Ht]. split; [|split].
  - rewrite length_app. lia.
  - rewrite skipn_app.
    replace (n - List.length (post_analytics d))%nat with 0%nat by lia.
    rewrite !map_app, Hlog. cbn [skipn map logged_event event_row
      PostAnalytics.post_id PostAnalytics.event_type
      PostAnalytics.event_data].
    now destruct (signal_event sig) as [[x y] z].
  - now apply log_ids_snoc.
Qed.

Lemma publishPost_engine_ok (n : nat) (twitterClient : TwitterClient)
    (now : Timestamp) (post : ScheduledPost) (st : PostScheduler) :
  opened st -> engine_ok_from n st ->
  opened (publishPost twitterClient now post st)
  /\ engine_ok_from n (publishPost twitterClient now post st).
Proof.
  intros Hop Hok.
  destruct (publishPost_cases twitterClient now post st)
    as [-> | [(e & ->) | (k & Hp & ->)]].
  - now destruct (emit_engine_ok n now (post_published post) st Hop Hok)
      as (? & ? & _).
  - now destruct (emit_engine_ok n now (post_failed post e) st Hop Hok)
      as (? & ? & _).
  - destruct (emit_engine_ok n now (post_retrying post k) st Hop Hok)
      as ([d Hd] & Hok' & Ht).
    unfold setTimeout, opened, engine_ok_from in *. cbn [db timers emitted].
    rewrite Hd in *. destruct Hok' as [Hlog Htw].
    split; [eauto|]. split; [exact Hlog|].
    apply Forall_app. split; [exact Htw|].
    constructor; [exact Hp | constructor].
Qed.

Lemma fold_publish_engine_ok (n : nat) (twitterClient : TwitterClient)
    (now : Timestamp) (due : list Posts.row) (st : PostScheduler) :
  opened st -> engine_ok_from n st ->
  engine_ok_from n
    (fold_left
       (fun s dbPost =>
          publishPost twitterClient now (post_of_due_row dbPost) s) due st).
Proof.
  revert st. induction due as [|x due IH]; intros st Hop Hok; simpl.
  - exact Hok.
  - destruct (publishPost_engine_ok n twitterClient now (post_of_due_row x)
                st Hop Hok) as [Hop' Hok'].
    now apply IH.
Qed.

Lemma engine_ok_posts (n : nat) (st : PostScheduler) (d : Database)
    (rows : list Posts.row) :
  db st = Some d -> engine_ok_from n st ->
  engine_ok_from n (set_db (set_posts rows d) st).
Proof.
  unfold engine_ok_from, set_db, set_posts.
  cbn [db timers emitted post_analytics]. now intros ->.
Qed.

Lemma schedulePost_engine_ok (n : nat) (postId : string) (now : Timestamp)
    (postData : PostRequest) (st : PostScheduler) :
  engine_ok_from n st ->
  engine_ok_from n (snd (schedulePost postId now postData st)).
Proof.
  intros Hok. unfold schedulePost.
  destruct (db st) as [d|] eqn:Hdb; [|exact Hok].
  destruct (nullish (req_scheduledFor postData) (ValidDate now));
    [|exact Hok].
  destruct (existsb _ (posts d)); [exact Hok|]. cbn [snd].
  apply emit_engine_ok.
  - eexists. reflexivity.
  - now apply engine_ok_posts.
Qed.

Lemma Forall_drop {A} (P : A -> Prop) (k : nat) (l : list A) :
  Forall P l -> Forall P (firstn k l ++ skipn (S k) l).
Proof.
  intros H. apply Forall_forall. intros x Hx.
  apply in_app_or in Hx. eapply Forall_forall; [exact H|].
  destruct Hx as [Hx|Hx].
  - now apply firstn_incl in Hx.
  - rewrite <- (firstn_skipn (S k) l). apply in_or_app. now right.
Qed.

Lemma step_engine_ok (n : nat) (st : PostScheduler) (op : Op) :
  engine_ok_from n st -> engine_ok_from n (step st op).
Proof.
  intros Hok. destruct op; cbn [step].
  - unfold initDatabase, open_database.
    destruct (db st) eqn:Hdb; [exact Hok|].
    unfold engine_ok_from in *. rewrite Hdb in Hok.
    destruct Hok as [(Ht & He & ->) Htw]. cbn [set_db db timers emitted
      post_analytics nullish]. rewrite He, Ht. cbn. repeat split; try lia.
    constructor.
  - now apply schedulePost_engine_ok.
  - unfold scheduler_tick. destruct (db st) as [d|] eqn:Hdb; [|exact Hok].
    apply fold_publish_engine_ok; [now exists d | exact Hok].
  - unfold fire_timer.
    destruct (nth_error (timers st) k) as [t|] eqn:Hn; [|exact Hok].
    destruct (timer_due t <=? now); [|exact Hok].
    destruct (db st) as [d|] eqn:Hdb.
    + apply publishPost_engine_ok.
      * exists d. reflexivity.
      * unfold engine_ok_from in *. cbn [db timers emitted].
        rewrite Hdb in Hok.
        destruct Hok as [Hlog Htw]. split; [exact Hlog|].
        now apply Forall_drop.
    + unfold engine_ok_from in Hok. rewrite Hdb in Hok.
      destruct Hok as [[Ht _] _]. rewrite Ht in Hn.
      destruct k; discriminate.
  - unfold cleanupOldPosts. destruct (db st) as [d|] eqn:Hdb; [|exact Hok].
    now apply engine_ok_posts.
  - now apply schedulePost_engine_ok.
  - unfold deleteScheduledPost.
    destruct (db st) as [d|] eqn:Hdb; cbn [snd]; [|exact Hok].
    now apply engine_ok_posts.
  - exact Hok.
Qed.

Lemma run_engine_ok (n : nat) (ops : list Op) (st : PostScheduler) :
  engine_ok_from n st -> engine_ok_from n (run ops st).
Proof.
  unfold run. revert st.
  induction ops as [|op ops IH]; intros st Hok; simpl.
  - exact Hok.
  - apply IH. now apply step_engine_ok.
Qed.

Lemma constructed_engine_ok : engine_ok_from 0 constructed.
Proof. unfold engine_ok_from; cbn. repeat split. constructor. Qed.

Lemma restart_engine_ok (n : nat) (st : PostScheduler) :
  engine_ok_from n st ->
  engine_ok_from (List.length (events_of st)) (restart st).
Proof.
  unfold engine_ok_from, restart, open_database, events_of.
  cbn [db constructed set_db timers emitted nullish].
  destruct (db st) as [d|].
  - intros [(Hn & _ & Hids) _]. rewrite skipn_all.
    repeat split; auto.
  - intros _. cbn. repeat split; auto.
Qed.

Lemma reachable_engine_ok (st : PostScheduler) :
  reachable st -> engine_ok st.
Proof.
  apply reachable_invariant.
  - exists 0%nat. apply constructed_engine_ok.
  - intros s op [n Hn]. exists n. now apply step_engine_ok.
  - intros s [n Hn]. eexists. eapply restart_engine_ok, Hn.
Qed.

(** In every reachable state, restarts of the process included, the most
    recent events of the log mirror the signals that the running scheduler
    has emitted: one event per signal, in order, with the post, the type
    and the payload of that signal; what comes before them was logged by
    earlier processes.  The ids of the whole log count 1, 2, 3 and so on
    without a gap.  As long as the first process runs, on the database file
    that it created, the whole log mirrors its signals. *)
Theorem log_mirrors_signals (st : PostScheduler) (Hreach : reachable st) :
  (exists earlier recent,
      events_of st = earlier ++ recent /\
      map logged_event recent = map signal_event (emitted st))
  /\ map PostAnalytics.id (events_of st) =
     map Z.of_nat (seq 1 (List.length (events_of st)))
  /\ (List.length (emitted st) <= List.length (events_of st))%nat
  /\ (forall ops, st = run ops constructed ->
        map logged_event (events_of st) = map signal_event (emitted st)).
Proof.
  assert (Hfrom : forall n s, engine_ok_from n s ->
            events_of s = firstn n (events_of s) ++ skipn n (events_of s) /\
            map logged_event (skipn n (events_of s))
            = map signal_event (emitted s) /\
            map PostAnalytics.id (events_of s) =
            map Z.of_nat (seq 1 (List.length (events_of s)))).
  { intros n s Hok. unfold engine_ok_from, events_of in *.
    rewrite firstn_skipn.
    destruct (db s) as [d|].
    - destruct Hok as [(_ & Hlog & Hids) _]. auto.
    - destruct Hok as [(_ & He & _) _]. rewrite He, skipn_nil. auto. }
  destruct (reachable_engine_ok st Hreach) as [n Hok].
  destruct (Hfrom n st Hok) as (Hsplit & Hlog & Hids).
  split; [eauto|]. split; [exact Hids|]. split.
  - rewrite <- (length_map signal_event), <- Hlog, length_map.
    rewrite Hsplit at 2. rewrite length_app. lia.
  - intros ops ->.
    destruct (Hfrom 0%nat (run ops constructed)
                (run_engine_ok 0 ops constructed constructed_engine_ok))
      as (_ & H & _).
    exact H.
Qed.

Lemma log_mirrors_signals_witness :
  map logged_event
    (events_of (run [OpInitDatabase; OpSchedulePost "a" 0 sample_request]
                  constructed)) =
  map signal_event
    (emitted (run [OpInitDatabase; OpSchedulePost "a" 0 sample_request]
                constructed)).
Proof.
  apply (proj2 (proj2 (proj2
           (log_mirrors_signals
              (run [OpInitDatabase; OpSchedulePost "a" 0 sample_request]
                 constructed)
              (reachable_run [OpInitDatabase;
                              OpSchedulePost "a" 0 sample_request]))))
           [OpInitDatabase; OpSchedulePost "a" 0 sample_request] eq_refl).
Defined.

(** While the database is closed nothing can happen to the scheduler: a
    reachable state without a database is the state the constructor left,
    with no timer armed and no signal emitted. *)
Theorem closed_database_is_idle (st : PostScheduler)
    (Hreach : reachable st) (Hclosed : db st = None) :
  st = constructed.
Proof.
  destruct (reachable_engine_ok st Hreach) as [n Hok].
  unfold engine_ok_from in Hok. rewrite Hclosed in Hok.
  destruct Hok as [(Ht & He & _) _].
  destruct st as [o t e]; cbn in *. now subst.
Qed.

Lemma closed_database_is_idle_witness :
  run [OpTick (always_failing sample_error) 60000;
       OpSchedulePost "a" 0 sample_request; OpCleanup utc_zone 5]
    constructed =
  constructed.
Proof.
  apply (closed_database_is_idle
           (run [OpTick (always_failing sample_error) 60000;
                 OpSchedulePost "a" 0 sample_request; OpCleanup utc_zone 5]
              constructed)
           (reachable_run [OpTick (always_failing sample_error) 60000;
                           OpSchedulePost "a" 0 sample_request;
                           OpCleanup utc_zone 5])
           eq_refl).
Defined.

(** Only Twitter posts are ever retried: in every reachable state each
    armed timer carries a post whose platform is [twitter]. *)
Theorem timers_only_for_twitter (st : PostScheduler)
    (Hreach : reachable st) (t : Timer) (Hin : In t (timers st)) :
  platform (timer_post t) = twitter.
Proof.
  destruct (reachable_engine_ok st Hreach) as [n [_ Htw]].
  eapply Forall_forall in Htw; eauto.
Qed.

Lemma timers_only_for_twitter_witness :
  platform
    (timer_post
       (retry_timer 360000
          (post_of_due_row (inserted_row "a" 0 1000 sample_request)))) =
  twitter.
Proof.
  apply (timers_only_for_twitter
           (run [OpInitDatabase; OpSchedulePost "a" 0 sample_request;
                 OpTick (always_failing sample_error) 60000] constructed)
           (reachable_run [OpInitDatabase;
                           OpSchedulePost "a" 0 sample_request;
                           OpTick (always_failing sample_error) 60000])).
  left. reflexivity.
Defined.

(** ** The life of a row *)

Lemma sql_update_select_map (fields : list UpdateField) (i j : string)
    (rows : list Posts.row) :
  select_by_id i (sql_update fields j rows) =
  option_map
    (fun r => if String.eqb (Posts.id r) j
              then fold_left (fun acc f => apply_field r f acc) fields r
              else r)
    (select_by_id i rows).
Proof.
  unfold select_by_id, sql_update.
  induction rows as [|x rows IH]; simpl; [reflexivity|].
  destruct (String.eqb (Posts.id x) j) eqn:Hj.
  - rewrite apply_fields_id.
    destruct (String.eqb (Posts.id x) i); [simpl; now rewrite Hj | exact IH].
  - destruct (String.eqb (Posts.id x) i); [simpl; now rewrite Hj | exact IH].
Qed.

Lemma same_post_refl (r : Posts.row) : same_post r r.
Proof. repeat split. Qed.

Lemma same_post_trans (a b c : Posts.row) :
  same_post a b -> same_post b c -> same_post a c.
Proof. unfold same_post. intuition congruence. Qed.

Lemma keeps_refl (rows : list Posts.row) : keeps rows rows.
Proof.
  intros i r H. exists r. split; [exact H|].
  split; [apply same_post_refl | now left].
Qed.

Lemma keeps_trans (a b c : list Posts.row) :
  keeps a b -> keeps b c -> keeps a c.
Proof.
  intros H1 H2 i r Hr.
  destruct (H1 i r Hr) as (r1 & Hr1 & Hs1 & Hc1).
  destruct (H2 i r1 Hr1) as (r2 & Hr2 & Hs2 & Hc2).
  exists r2. split; [exact Hr2|].
  split; [eapply same_post_trans; eauto|].
  destruct Hc2 as [-> | Hp]; [exact Hc1 | now right].
Qed.

Lemma keeps_published (now : Timestamp) (j : string)
    (rows : list Posts.row) :
  keeps rows (sql_update (published_fields now) j rows).
Proof.
  intros i r Hr. rewrite sql_update_select_map, Hr. cbn [option_map].
  eexists. split; [reflexivity|].
  destruct (String.eqb (Posts.id r) j).
  - split; [repeat split | now right].
  - split; [apply same_post_refl | now left].
Qed.

Lemma publishPost_keeps (twitterClient : TwitterClient) (now : Timestamp)
    (post : ScheduledPost) (st : PostScheduler) :
  store_ok st ->
  keeps (rows_of st) (rows_of (publishPost twitterClient now post st)).
Proof.
  intros [Hall _].
  destruct (rows_of_publishPost twitterClient now post st)
    as [-> | [[-> _] | (error & -> & [Hnone | (r & Hsel & Hge)])]].
  - apply keeps_published.
  - apply keeps_refl.
  - rewrite sql_update_absent by assumption. apply keeps_refl.
  - exfalso. apply select_by_id_some in Hsel. destruct Hsel as [Hin _].
    pose proof (proj1 (Forall_forall _ _) Hall r Hin) as (Hrc & _).
    rewrite Hrc in Hge. simpl in Hge. lia.
Qed.

Lemma fold_publish_keeps (twitterClient : TwitterClient) (now : Timestamp)
    (due : list Posts.row) (st : PostScheduler) :
  store_ok st ->
  keeps (rows_of st)
    (rows_of
       (fold_left
          (fun s dbPost =>
             publishPost twitterClient now (post_of_due_row dbPost) s)
          due st)).
Proof.
  revert st. induction due as [|x due IH]; intros st Hok; simpl.
  - apply keeps_refl.
  - eapply keeps_trans; [now apply publishPost_keeps|].
    apply IH. now apply publishPost_store_ok.
Qed.

Lemma select_by_id_filter (f : Posts.row -> bool) (i : string)
    (rows : list Posts.row) (r : Posts.row) :
  primary_key rows ->
  select_by_id i rows = Some r ->
  select_by_id i (filter f rows) = if f r then Some r else None.
Proof.
  unfold primary_key, select_by_id.
  induction rows as [|x rows IH]; simpl; intros Hpk Hsel; [discriminate|].
  inversion Hpk as [|? ? Hnot Hpk']; subst.
  destruct (String.eqb (Posts.id x) i) eqn:Hx.
  - injection Hsel as ->. destruct (f r) eqn:Hf; simpl.
    + now rewrite Hx.
    + apply String.eqb_eq in Hx.
      destruct (find _ (filter f rows)) as [y|] eqn:Hy; [|reflexivity].
      exfalso. apply find_some in Hy. destruct Hy as [Hin He].
      apply filter_In in Hin. apply String.eqb_eq in He.
      apply Hnot. rewrite Hx, <- He. apply in_map. tauto.
  - destruct (f x); simpl; [rewrite Hx|]; now apply IH.
Qed.

Lemma schedulePost_keeps (postId : string) (now : Timestamp)
    (postData : PostRequest) (st : PostScheduler) :
  keeps (rows_of st) (rows_of (snd (schedulePost postId now postData st))).
Proof.
  unfold schedulePost. destruct (db st) as [d|] eqn:Hdb;
    [|apply keeps_refl].
  destruct (nullish (req_scheduledFor postData) (ValidDate now));
    [|apply keeps_refl].
  destruct (existsb _ (posts d)); [apply keeps_refl|].
  cbn [snd]. rewrite rows_of_emit_scheduled.
  unfold rows_of; cbn [set_db set_posts db posts]. rewrite Hdb.
  intros i r Hr. exists r. rewrite select_by_id_snoc, Hr.
  split; [reflexivity|]. split; [apply same_post_refl | now left].
Qed.

(** What one operation can do to a stored row, in any reachable state.
    Either the row is still there, with the same id, content, scheduled
    time, creation time, platform, tags and retry count, and it is
    untouched or has become [posted]; in particular a posted row stays
    posted.  Or the row is gone, and then it was pending and deleted by
    [deleteScheduledPost] on its id, or posted, created before the cut-off
    of [setDate(getDate() - 30)] and removed by [cleanupOldPosts]. *)
Theorem row_lifecycle (st : PostScheduler) (Hreach : reachable st)
    (i : string) (r : Posts.row)
    (Hrow : select_by_id i (rows_of st) = Some r) (op : Op) :
  (exists r',
      select_by_id i (rows_of (step st op)) = Some r' /\
      same_post r r' /\
      (r' = r \/ Posts.status r' = posted) /\
      (Posts.status r = posted -> Posts.status r' = posted))
  \/ (select_by_id i (rows_of (step st op)) = None /\
      ((op = OpDelete i /\ Posts.status r = pending) \/
       (exists tz now,
           op = OpCleanup tz now /\ Posts.status r = posted /\
           Posts.created_at r < thirtyDaysAgo tz now))).
Proof.
  pose proof (reachable_store_ok st Hreach) as Hok.
  assert (Hkeep : keeps (rows_of st) (rows_of (step st op)) ->
    exists r',
      select_by_id i (rows_of (step st op)) = Some r' /\
      same_post r r' /\
      (r' = r \/ Posts.status r' = posted) /\
      (Posts.status r = posted -> Posts.status r' = posted)).
  { intros Hk. destruct (Hk i r Hrow) as (r' & Hr' & Hs & Hc).
    exists r'. split; [exact Hr'|]. split; [exact Hs|]. split; [exact Hc|].
    intros Hp. destruct Hc as [-> | Hc]; assumption. }
  destruct Hok as [Hall Hpk].
  pose proof (select_by_id_some _ _ _ Hrow) as [Hin Hid].
  pose proof (proj1 (Forall_forall _ _) Hall r Hin) as (_ & Hnf & _).
  destruct op; cbn [step] in *.
  - left. apply Hkeep. unfold initDatabase, open_database.
    destruct (db st) eqn:Hdb; [apply keeps_refl|].
    unfold rows_of in Hrow. rewrite Hdb in Hrow. discriminate.
  - left. apply Hkeep, schedulePost_keeps.
  - left. apply Hkeep. unfold scheduler_tick.
    destruct (db st); [|apply keeps_refl].
    apply fold_publish_keeps. now split.
  - left. apply Hkeep. unfold fire_timer.
    destruct (nth_error (timers st) k) as [t|]; [|apply keeps_refl].
    destruct (timer_due t <=? now); [|apply keeps_refl].
    match goal with
    | |- keeps _ (rows_of (publishPost _ _ _ ?s)) =>
        change (rows_of st) with (rows_of s);
        apply publishPost_keeps; now split
    end.
  - rewrite cleanupOldPosts_rows, (select_by_id_filter _ _ _ _ Hpk Hrow).
    destruct (is_old tz now r) eqn:Ho; cbn [negb].
    + right. split; [reflexivity|]. right. exists tz, now.
      apply is_old_iff in Ho. destruct Ho as [[Hp|Hf] Hc]; [auto|congruence].
    + left. exists r. split; [reflexivity|].
      split; [apply same_post_refl | auto].
  - left. apply Hkeep, schedulePost_keeps.
  - rewrite deleteScheduledPost_rows,
      (select_by_id_filter _ _ _ _ Hpk Hrow).
    destruct (delete_hit postId r) eqn:Hh; cbn [negb].
    + right. split; [reflexivity|]. left.
      apply delete_hit_iff in Hh. destruct Hh as [He Hp].
      split; [congruence | exact Hp].
    + left. exists r. split; [reflexivity|].
      split; [apply same_post_refl | auto].
  - left. apply Hkeep, keeps_refl.
Qed.

Lemma row_lifecycle_witness :
  (exists r',
      select_by_id "a"
        (rows_of
           (step (run [OpInitDatabase; OpSchedulePost "a" 0 sample_request]
                    constructed)
              (OpTick (fun _ => TweetOk) 60000))) = Some r' /\
      same_post (inserted_row "a" 0 1000 sample_request) r' /\
      (r' = inserted_row "a" 0 1000 sample_request \/
       Posts.status r' = posted) /\
      (Posts.status (inserted_row "a" 0 1000 sample_request) = posted ->
       Posts.status r' = posted))
  \/ (select_by_id "a"
        (rows_of
           (step (run [OpInitDatabase; OpSchedulePost "a" 0 sample_request]
                    constructed)
              (OpTick (fun _ => TweetOk) 60000))) = None /\
      ((OpTick (fun _ => TweetOk) 60000 = OpDelete "a" /\
        Posts.status (inserted_row "a" 0 1000 sample_request) = pending) \/
       (exists tz now,
           OpTick (fun _ => TweetOk) 60000 = OpCleanup tz now /\
           Posts.status (inserted_row "a" 0 1000 sample_request) = posted /\
           Posts.created_at (inserted_row "a" 0 1000 sample_request)
           < thirtyDaysAgo tz now))).
Proof.
  apply (row_lifecycle
           (run [OpInitDatabase; OpSchedulePost "a" 0 sample_request]
              constructed)
           (reachable_run [OpInitDatabase; OpSchedulePost "a" 0 sample_request])
           "a" (inserted_row "a" 0 1000 sample_request) eq_refl
           (OpTick (fun _ => TweetOk) 60000)).
Defined.

(** ** A retry timer outlives the success of a later tick *)

Lemma sql_update_single (fields : list UpdateField) (r : Posts.row) :
  sql_update fields (Posts.id r) [r] =
  [fold_left (fun acc f => apply_field r f acc) fields r].
Proof. unfold sql_update. simpl. now rewrite String.eqb_refl. Qed.

(** The ticks do not wait for a pending retry.  A Twitter post whose first
    attempt fails is dispatched again by the next tick; when that attempt
    succeeds the row is posted, yet the timer of the first attempt is still
    armed, and when it fires and the call succeeds the post is published a
    second time: two [published] events, and [published_at] moved to the
    time of the timer. *)
Theorem retry_timer_publishes_again (postId : string)
    (now0 t now1 now2 now3 : Timestamp) (postData : PostRequest)
    (error : JsError)
    (Hplatform : req_platform postData = twitter)
    (Hdate : nullish (req_scheduledFor postData) (ValidDate now0)
             = ValidDate t)
    (Hdue : t <= now1) (Hnext : now1 <= now2)
    (Htimer : now1 + 300000 <= now3) :
  let delivering : TwitterClient := fun _ => TweetOk in
  let row := inserted_row postId now0 t postData in
  let st2 :=
    run [OpInitDatabase; OpSchedulePost postId now0 postData;
         OpTick (always_failing error) now1; OpTick delivering now2]
      constructed in
  let st3 := fire_timer delivering now3 0 st2 in
  rows_of st2 = [published_row now2 row]
  /\ timers st2 = [retry_timer (now1 + 300000) (post_of_due_row row)]
  /\ rows_of st3 = [published_row now3 row]
  /\ Posts.status (published_row now3 row) = posted
  /\ Posts.published_at (published_row now3 row) = Some now3
  /\ trail postId st3 =
     [("scheduled"%string, Some (DataScheduledFor t));
      ("retry"%string, Some (DataAttempt 1));
      ("published"%string, None);
      ("published"%string, None)]
  /\ emitted st3 =
     [post_scheduled (scheduled_post postId now0 t postData);
      post_retrying (post_of_due_row row) 1;
      post_published (post_of_due_row row);
      post_published (post_of_due_row row)]
  /\ timers st3 = [].
Proof.
  intros delivering row st2 st3.
  assert (H2 : st2 =
    scheduler_tick delivering now2
      (run [OpInitDatabase; OpSchedulePost postId now0 postData;
            OpTick (always_failing error) now1] constructed)).
  { unfold st2, run. cbn [fold_left step]. reflexivity. }
  rewrite (first_tick_fails _ _ _ _ _ _ Hplatform Hdate Hdue) in H2.
  fold row in H2. unfold scheduler_tick in H2. cbn [db posts] in H2.
  rewrite select_due_single in H2.
  2:{ apply (is_due_le now2 row 0); [reflexivity | cbn; lia | reflexivity|].
      lia. }
  cbn [fold_left] in H2.
  rewrite publishPost_delivered in H2 by (intros _; reflexivity).
  erewrite emit_published in H2 by reflexivity.
  cbn [db posts post_analytics timers emitted] in H2.
  change (id (post_of_due_row row)) with (Posts.id row) in H2.
  rewrite sql_update_single in H2. fold (published_row now2 row) in H2.
  assert (H3 : st3 =
    publishPost delivering now3 (post_of_due_row row)
      {| db := db st2; timers := []; emitted := emitted st2 |}).
  { unfold st3, fire_timer. rewrite H2.
    cbn [timers nth_error retry_timer timer_due timer_post db emitted
         firstn skipn app].
    replace (now1 + 300000 <=? now3) with true
      by (symmetry; apply Z.leb_le; lia).
    reflexivity. }
  rewrite publishPost_delivered in H3 by (intros _; reflexivity).
  rewrite H2 in H3. cbn [db emitted] in H3.
  erewrite emit_published in H3 by reflexivity.
  cbn [db posts post_analytics timers emitted] in H3.
  change (id (post_of_due_row row)) with (Posts.id (published_row now2 row))
    in H3.
  rewrite sql_update_single in H3.
  rewrite H3, H2. unfold rows_of, trail, events_of.
  cbn [db posts post_analytics timers emitted].
  repeat split.
  cbn [app filter event_row PostAnalytics.post_id].
  change (Posts.id (published_row now2 row)) with postId.
  rewrite !String.eqb_refl. reflexivity.
Qed.

Lemma retry_timer_publishes_again_witness :
  timers
    (fire_timer (fun _ => TweetOk) 360000 0
       (run [OpInitDatabase; OpSchedulePost "post_1" 2000 sample_request;
             OpTick (always_failing sample_error) 60000;
             OpTick (fun _ => TweetOk) 120000] constructed)) = [].
Proof.
  apply (proj2 (proj2 (proj2 (proj2 (proj2 (proj2 (proj2
           (retry_timer_publishes_again "post_1" 2000 1000 60000 120000
              360000 sample_request sample_error eq_refl eq_refl
              ltac:(lia) ltac:(lia) ltac:(lia))))))))).
Defined.

(** ** What an attempt and a tick leave alone *)

Lemma sql_update_other (fields : list UpdateField) (i j : string)
    (rows : list Posts.row) :
  i <> j ->
  select_by_id i (sql_update fields j rows) = select_by_id i rows.
Proof.
  intros Hne. rewrite sql_update_select_map.
  destruct (select_by_id i rows) as [r|] eqn:Hr; [|reflexivity].
  apply select_by_id_some in Hr. destruct Hr as [_ He]. cbn [option_map].
  assert (Hj : String.eqb (Posts.id r) j = false)
    by (apply String.eqb_neq; congruence).
  now rewrite Hj.
Qed.

Lemma publishPost_other (twitterClient : TwitterClient) (now : Timestamp)
    (post : ScheduledPost) (st : PostScheduler) (i : string) :
  i <> id post ->
  select_by_id i (rows_of (publishPost twitterClient now post st)) =
  select_by_id i (rows_of st).
Proof.
  intros Hne.
  destruct (rows_of_publishPost twitterClient now post st)
    as [-> | [[-> _] | (error & -> & _)]];
    [now apply sql_update_other | reflexivity | now apply sql_update_other].
Qed.

Lemma fold_publish_other (twitterClient : TwitterClient) (now : Timestamp)
    (due : list Posts.row) (st : PostScheduler) (i : string) :
  (forall x, In x due -> Posts.id x <> i) ->
  select_by_id i
    (rows_of
       (fold_left
          (fun s dbPost =>
             publishPost twitterClient now (post_of_due_row dbPost) s)
          due st)) =
  select_by_id i (rows_of st).
Proof.
  revert st. induction due as [|x due IH]; intros st Hall; simpl.
  - reflexivity.
  - rewrite IH by (intros y Hy; apply Hall; now right).
    apply publishPost_other. cbn [post_of_due_row id].
    apply not_eq_sym, Hall. now left.
Qed.

(** A tick of the server clock changes no row that its query does not
    select.  On a table that obeys its primary key, a row that is posted or
    failed, or has a retry count of 3 or more, or is scheduled for a later
    time of a year up to 9999, is after the tick exactly what it was
    before, whatever the Twitter client answers for the others.  A row
    scheduled for the year 10000 or later is not among them: its text is
    below that of the clock, and the tick selects it. *)
Theorem tick_changes_only_due_rows (twitterClient : TwitterClient)
    (now : Timestamp) (st : PostScheduler) (i : string) (r : Posts.row)
    (Hclock : real_clock now)
    (Hpk : primary_key (rows_of st))
    (Hrow : select_by_id i (rows_of st) = Some r)
    (Hnot : Posts.status r <> pending
            \/ (exists n, Posts.retry_count r = Some n /\ 3 <= n)
            \/ Posts.retry_count r = None
            \/ (now < Posts.scheduled_for r /\
                Posts.scheduled_for r < year_10000)) :
  is_due now r = false
  /\ select_by_id i (rows_of (scheduler_tick twitterClient now st)) = Some r.
Proof.
  assert (Hdue : is_due now r = false).
  { apply not_true_is_false. intros Hd. apply is_due_iff in Hd.
    destruct Hd as (Hs & Ht & m & Hm & Hlt).
    apply (text_leb_clock_iff _ _ Hclock) in Ht. unfold year_10000 in *.
    destruct Hnot as [H | [(k & Hk & Hge) | [H | [H1 H2]]]];
      [congruence | rewrite Hm in Hk; injection Hk as <-; lia
       | congruence | lia]. }
  split; [exact Hdue|]. clear Hnot. rename Hdue into Hnot.
  rewrite <- Hrow. unfold scheduler_tick.
  destruct (db st) as [d|] eqn:Hdb; [|reflexivity].
  apply fold_publish_other. intros x Hx He.
  apply select_due_In in Hx. destruct Hx as [Hin Hd].
  assert (Hrows : rows_of st = posts d) by (unfold rows_of; now rewrite Hdb).
  rewrite <- Hrows in Hin.
  pose proof (select_by_id_unique _ _ Hpk Hin) as Hx.
  rewrite He, Hrow in Hx. injection Hx as ->. congruence.
Qed.

Lemma tick_changes_only_due_rows_witness :
  select_by_id "b"
    (rows_of (scheduler_tick (always_failing sample_error) 5000
                (sample_scheduler [sample_row "a" pending 0 0;
                                   sample_row "b" posted 0 0]))) =
  Some (sample_row "b" posted 0 0).
Proof.
  refine (proj2
            (tick_changes_only_due_rows (always_failing sample_error) 5000
               (sample_scheduler [sample_row "a" pending 0 0;
                                  sample_row "b" posted 0 0])
               "b" (sample_row "b" posted 0 0) _
               sample_primary_key eq_refl _)).
  - unfold real_clock, year_0, year_10000. lia.
  - left. discriminate.
Defined.

(** A publish attempt on a post that is no longer stored (deleted after it
    was dispatched) never brings the row back.  When the attempt is
    delivered a [published] signal is emitted and logged all the same; when
    the Twitter call fails the flow does not retry but emits [post:failed]
    at once.  No timer is armed in either case. *)
Theorem publishPost_on_missing_post (twitterClient : TwitterClient)
    (now : Timestamp) (post : ScheduledPost) (st : PostScheduler)
    (d : Database)
    (Hdb : db st = Some d)
    (Hgone : select_by_id (id post) (posts d) = None) :
  let st' := publishPost twitterClient now post st in
  rows_of st' = posts d
  /\ timers st' = timers st
  /\ (delivered twitterClient post ->
      emitted st' = emitted st ++ [post_published post] /\
      events_of st' =
      events_of st ++ [event_row d now (id post) "published" None])
  /\ (forall error,
        platform post = twitter ->
        twitterClient (content post) = TweetError error ->
        emitted st' = emitted st ++ [post_failed post error] /\
        events_of st' =
        events_of st ++
        [event_row d now (id post) "failed"
           (Some (DataError (message error)))]).
Proof.
  intros st'.
  assert (Hrows : rows_of st = posts d) by (unfold rows_of; now rewrite Hdb).
  assert (Hev : events_of st = post_analytics d)
    by (unfold events_of; now rewrite Hdb).
  assert (Hpub : publishPost twitterClient now post st =
                 emit now (post_published post) st ->
                 rows_of st' = posts d /\ timers st' = timers st /\
                 emitted st' = emitted st ++ [post_published post] /\
                 events_of st' =
                 events_of st ++ [event_row d now (id post) "published" None]).
  { intros He. unfold st'. rewrite He, (emit_published _ _ _ _ Hdb).
    unfold rows_of, events_of. cbn [db posts post_analytics timers emitted].
    rewrite Hdb, sql_update_absent by assumption. auto. }
  assert (Hfail : forall error,
             publishPost twitterClient now post st =
             emit now (post_failed post error) st ->
             rows_of st' = posts d /\ timers st' = timers st /\
             emitted st' = emitted st ++ [post_failed post error] /\
             events_of st' =
             events_of st ++
             [event_row d now (id post) "failed"
                (Some (DataError (message error)))]).
  { intros error He. unfold st'. rewrite He, (emit_failed _ _ _ _ _ Hdb).
    unfold rows_of, events_of. cbn [db posts post_analytics timers emitted].
    rewrite Hdb, sql_update_absent by assumption. auto. }
  assert (Hcase : publishPost twitterClient now post st =
                  emit now (post_published post) st
                  \/ exists error,
                       platform post = twitter /\
                       twitterClient (content post) = TweetError error /\
                       publishPost twitterClient now post st =
                       emit now (post_failed post error) st).
  { unfold publishPost, publishToTwitter.
    destruct (platform post) eqn:Hp; cbv iota; auto.
    destruct (twitterClient (content post)) as [|error] eqn:Hc; auto.
    right. exists error. rewrite getPostById_rows, Hrows, Hgone. auto. }
  split; [|split; [|split]].
  - destruct Hcase as [He | (e & _ & _ & He)];
      [apply (Hpub He) | apply (Hfail e He)].
  - destruct Hcase as [He | (e & _ & _ & He)];
      [apply (Hpub He) | apply (Hfail e He)].
  - intros Hok. apply Hpub. now apply publishPost_delivered.
  - intros error Hp Hf. apply Hfail.
    rewrite (publishPost_failed_attempt _ _ _ _ error Hp Hf).
    now rewrite Hrows, Hgone.
Qed.

Lemma publishPost_on_missing_post_witness :
  timers (publishPost (always_failing sample_error) 5000 twitter_post
            (sample_scheduler [])) = [].
Proof.
  apply (proj1 (proj2
           (publishPost_on_missing_post (always_failing sample_error) 5000
              twitter_post (sample_scheduler [])
              {| posts := []; post_analytics := [] |} eq_refl eq_refl))).
Defined.

(** ** updatePostStatus as a partial update *)

Lemma rows_of_updatePostStatus (postId : string) (s : Status)
    (errorMessage : option (option string))
    (publishedAt : option (option Timestamp)) (st : PostScheduler) :
  exists fields,
    rows_of (updatePostStatus postId s errorMessage publishedAt st) =
    sql_update fields postId (rows_of st)
    /\ fields =
       [SetStatus s]
       ++ match errorMessage with
          | Some m => [SetErrorMessage m]
          | None => []
          end
       ++ match publishedAt with
          | Some t => [SetPublishedAt t]
          | None => []
          end
       ++ (if Status_eqb s failed then [IncrRetryCount] else []).
Proof.
  eexists. split; [|reflexivity].
  unfold updatePostStatus, rows_of.
  destruct (db st) as [d|] eqn:Hdb; cbn [set_db set_posts db posts];
    [reflexivity | now rewrite Hdb].
Qed.

(** [updatePostStatus] writes the status of the row of that id and nothing
    of any other row.  An argument left out leaves its column as it is,
    while [null] clears it; the retry count grows by one exactly when the
    new status is [failed]; id, content, scheduled time, creation time,
    platform and tags are never written. *)
Theorem updatePostStatus_partial (postId : string) (s : Status)
    (errorMessage : option (option string))
    (publishedAt : option (option Timestamp)) (st : PostScheduler)
    (i : string) (r : Posts.row)
    (Hrow : select_by_id i (rows_of st) = Some r) :
  let st' := updatePostStatus postId s errorMessage publishedAt st in
  exists r',
    select_by_id i (rows_of st') = Some r'
    /\ (i <> postId -> r' = r)
    /\ (i = postId ->
        Posts.status r' = s
        /\ Posts.error_message r' =
           match errorMessage with
           | Some m => m
           | None => Posts.error_message r
           end
        /\ Posts.published_at r' =
           match publishedAt with
           | Some t => t
           | None => Posts.published_at r
           end
        /\ Posts.retry_count r' =
           match s with
           | failed => option_map (fun n => n + 1) (Posts.retry_count r)
           | _ => Posts.retry_count r
           end)
    /\ Posts.id r' = Posts.id r
    /\ Posts.content r' = Posts.content r
    /\ Posts.scheduled_for r' = Posts.scheduled_for r
    /\ Posts.created_at r' = Posts.created_at r
    /\ Posts.platform r' = Posts.platform r
    /\ Posts.tags r' = Posts.tags r
    /\ events_of st' = events_of st.
Proof.
  intros st'.
  destruct (rows_of_updatePostStatus postId s errorMessage publishedAt st)
    as (fields & Hrows & Hfields).
  fold st' in Hrows.
  assert (Hev : events_of st' = events_of st).
  { unfold st', updatePostStatus, events_of.
    destruct (db st) as [d|] eqn:Hdb; cbn; [reflexivity | now rewrite Hdb]. }
  pose proof (select_by_id_some _ _ _ Hrow) as [_ Hid].
  rewrite Hrows, sql_update_select_map, Hrow. cbn [option_map].
  eexists. split; [reflexivity|].
  destruct (String.eqb_spec (Posts.id r) postId) as [He|Hne].
  - subst fields.
    destruct errorMessage as [m|], publishedAt as [p|], s;
      cbn; repeat split; try congruence; intros; congruence.
  - repeat split; try congruence; try reflexivity.
Qed.

Lemma updatePostStatus_partial_witness :
  exists r',
    select_by_id "a"
      (rows_of (updatePostStatus "a" failed (Some (Some "boom"%string)) None
                  (sample_scheduler [sample_row "a" pending 0 2]))) = Some r'
    /\ Posts.retry_count r' = Some 3.
Proof.
  destruct (updatePostStatus_partial "a" failed (Some (Some "boom"%string))
              None (sample_scheduler [sample_row "a" pending 0 2])
              "a" (sample_row "a" pending 0 2) eq_refl)
    as (r' & Hsel & _ & Hupd & _).
  exists r'. split; [exact Hsel|].
  destruct (Hupd eq_refl) as (_ & _ & _ & Hrc). exact Hrc.
Defined.

(** ** Identifiers *)

(** In every reachable state the identifiers of the stored posts are
    pairwise different, so a lookup by id finds each stored row. *)
Theorem reachable_primary_key (st : PostScheduler) (Hreach : reachable st) :
  primary_key (rows_of st)
  /\ (forall r, In r (rows_of st) ->
                select_by_id (Posts.id r) (rows_of st) = Some r)
  /\ (forall r, In r (rows_of st) ->
                getPostById (Posts.id r) st = Some (post_of_row r)).
Proof.
  destruct (reachable_store_ok st Hreach) as [_ Hpk].
  split; [exact Hpk|]. split.
  - intros r Hin. now apply select_by_id_unique.
  - intros r Hin. rewrite getPostById_rows.
    now rewrite (select_by_id_unique _ _ Hpk Hin).
Qed.

Lemma reachable_primary_key_witness :
  primary_key
    (rows_of (run [OpInitDatabase; OpSchedulePost "a" 0 sample_request;
                   OpSchedulePost "a" 5 sample_request] constructed)).
Proof.
  apply (proj1 (reachable_primary_key
                  (run [OpInitDatabase; OpSchedulePost "a" 0 sample_request;
                        OpSchedulePost "a" 5 sample_request] constructed)
                  (reachable_run [OpInitDatabase;
                               OpSchedulePost "a" 0 sample_request;
                               OpSchedulePost "a" 5 sample_request]))).
Defined.
